(** * Reactive forms: the builder factory and the control tree

    A shallow embedding of [packages/forms/src/form_builder.ts] (module
    [Builder], a state monad over the JavaScript fragment of module [JS])
    and of the control tree of [model.ts] as the specification describes it
    (module [Model]).  The definitions come first; the facts about them
    follow in [JSFacts], [BuilderFacts] and [ModelFacts]. *)

From Stdlib Require Import ZArith NArith Ascii.
From stdpp Require Import base option list strings.

Set Warnings "-register-all".

(** ** The JavaScript fragment the builder runs on *)
Module JS.

(** Class instances live on a heap and are referred to by location; two
    references denote the same instance exactly when the locations agree. *)
Abbreviation loc := nat (only parsing).

(** Values of type [any].  Functions (validators) are identified by a name;
    arrays and plain objects are only ever read by the builder and are kept
    by value; [JRef] is a reference to a class instance. *)
Inductive any : Type :=
| undefined
| null
| JBool (b : bool)
| JNum (n : Z)
| JStr (s : string)
| JFn (name : string)
| JArr (elems : list any)
| JObj (props : list (string * any))
| JRef (l : loc).

(** A plain object: its own enumerable string-keyed properties, in insertion
    order. *)
Abbreviation JsObject := (list (string * any)) (only parsing).

(** [o[k]]: the value of property [k], [undefined] when [o] has none. *)
Fixpoint obj_get (o : JsObject) (k : string) : any :=
  match o with
  | [] => undefined
  | (k', v) :: o' => if String.eqb k' k then v else obj_get o' k
  end.

(** [o[k] = v], as far as the own properties of [o] go: an own property is
    overwritten in place and a new one is added last, except under
    [__proto__]: with no own property of that name the assignment reaches
    the setter inherited from [Object.prototype] and adds no property. *)
Fixpoint obj_set (o : JsObject) (k : string) (v : any) : JsObject :=
  match o with
  | [] => if String.eqb k "__proto__" then [] else [(k, v)]
  | (k', v') :: o' =>
      if String.eqb k' k then (k', v) :: o' else (k', v') :: obj_set o' k v
  end.

(** The own property [k] of [o], if it has one. *)
Fixpoint own_property (o : JsObject) (k : string) : option any :=
  match o with
  | [] => None
  | (k', v) :: o' => if String.eqb k' k then Some v else own_property o' k
  end.

(** Objects and functions, as opposed to primitive values. *)
Definition is_object (v : any) : bool :=
  match v with
  | JFn _ | JArr _ | JObj _ | JRef _ => true
  | _ => false
  end.

(** An object that the code creates and assigns into: its own properties,
    and the prototype once an assignment to [__proto__] has replaced
    [Object.prototype] ([None] until then; [Some null] for no prototype). *)
Record Obj : Type := mkObj {
  props : JsObject;
  proto : option any
}.

(** [{}]. *)
Definition empty_object : Obj := mkObj [] None.

(** [o[k] = v].  The setter of [__proto__] takes an object or [null] as the
    new prototype and ignores any other value. *)
Definition assign (o : Obj) (k : string) (v : any) : Obj :=
  mkObj (obj_set (props o) k v)
    (if String.eqb k "__proto__" then
       match own_property (props o) k with
       | Some _ => proto o
       | None =>
           match v with
           | null => Some null
           | _ => if is_object v then Some v else proto o
           end
       end
     else proto o).

(** [o[k]] where the model knows it: an own property; or, under
    [__proto__], the prototype that an assignment installed, which the
    inherited getter returns ([undefined] when there is no prototype to
    inherit the getter from).  [None] where the read goes to a property
    inherited from a prototype. *)
Definition read (o : Obj) (k : string) : option any :=
  match own_property (props o) k with
  | Some v => Some v
  | None =>
      if String.eqb k "__proto__" then
        match proto o with
        | Some null => Some undefined
        | p => p
        end
      else None
  end.

(** [a[i]]: indexing past the end of an array yields [undefined]. *)
Definition index (a : list any) (i : nat) : any := nth i a undefined.

(** Property keys that are array indices (canonical decimal numerals below
    [2^32 - 1]) are enumerated first, in ascending numeric order. *)
Definition digit (a : ascii) : option N :=
  let n := N_of_ascii a in
  if ((48 <=? n) && (n <=? 57))%N then Some (n - 48)%N else None.

Fixpoint digits (s : string) (acc : N) : option N :=
  match s with
  | EmptyString => Some acc
  | String a s' =>
      match digit a with
      | Some d => digits s' (10 * acc + d)%N
      | None => None
      end
  end.

Definition array_index (s : string) : option N :=
  match s with
  | EmptyString => None
  | String a s' =>
      if (N_of_ascii a =? 48)%N
      then match s' with EmptyString => Some 0%N | _ => None end
      else match digits s 0 with
           | Some n => if (n <? 4294967295)%N then Some n else None
           | None => None
           end
  end.

Fixpoint insert_sorted (x : N * string) (l : list (N * string)) :
    list (N * string) :=
  match l with
  | [] => [x]
  | y :: l' => if (x.1 <=? y.1)%N then x :: l else y :: insert_sorted x l'
  end.

Definition sort_indices (l : list (N * string)) : list (N * string) :=
  foldr insert_sorted [] l.

Definition index_key (k : string) : option (N * string) :=
  match array_index k with Some n => Some (n, k) | None => None end.

(** [Object.keys(o)]: array-index keys ascending, then the other keys in
    insertion order. *)
Definition Object_keys (o : JsObject) : list string :=
  let ks := o.*1 in
  (sort_indices (omap index_key ks)).*2
  ++ filter (λ k, array_index k = None) ks.

(** The classes of [model.ts] that the builder tests against, and any class a
    caller may define. *)
Inductive class : Type :=
| AbstractControl
| FormControl
| FormGroup
| FormArray
| UserClass (name : string).

#[export] Instance class_eq_dec : EqDecision class.
Proof. solve_decision. Defined.

(** What a constructor call recorded in the instance; [Foreign] for an
    instance of a class the builder knows nothing about. *)
Inductive payload : Type :=
| ControlArgs (formState validatorOrOpts asyncValidator : any)
| GroupArgs (controls : Obj) (options : JsObject)
| ArrayArgs (controls : list any) (validatorOrOpts asyncValidator : any)
| Foreign.

(** A class instance: its prototype chain, most derived class first, and
    what it was constructed from. *)
Record object : Type := mkObject {
  prototype_chain : list class;
  built_from : payload
}.

Abbreviation heap := (list object) (only parsing).

(** A call either returns a value in a new heap or throws. *)
Inductive error : Type :=
| ConfigurationError
| TypeError.

Inductive completion (A : Type) : Type :=
| Returns (a : A) (h : heap)
| Throws (e : error).
Arguments Returns {A} a h.
Arguments Throws {A} e.

Definition M (A : Type) : Type := heap -> completion A.

Definition ret {A} (a : A) : M A := fun h => Returns a h.

Definition bind {A B} (m : M A) (k : A -> M B) : M B :=
  fun h => match m h with
           | Returns a h' => k a h'
           | Throws e => Throws e
           end.

#[export] Instance M_ret : MRet M := @ret.
#[export] Instance M_bind : MBind M := fun A B k m => bind m k.

(** [new C(...)]: the instance is placed at the first free location. *)
Definition alloc (o : object) : M any :=
  fun h => Returns (JRef (length h)) (h ++ [o]).

(** [v instanceof C]: [C] occurs in the prototype chain of the instance [v]
    refers to; false for every value that is not an instance. *)
Definition instanceof (v : any) (C : class) : M bool :=
  fun h => Returns
    match v with
    | JRef l => match h !! l with
                | Some o => bool_decide (C ∈ prototype_chain o)
                | None => false
                end
    | _ => false
    end h.

(** [v !== undefined]. *)
Definition is_defined (v : any) : bool :=
  match v with undefined => false | _ => true end.

(** [v != null]: loose inequality, false for [null] and [undefined]. *)
Definition not_nullish (v : any) : bool :=
  match v with undefined | null => false | _ => true end.

Fixpoint mapM {A B} (f : A -> M B) (l : list A) : M (list B) :=
  match l with
  | [] => ret []
  | x :: l' => y ← f x; ys ← mapM f l'; ret (y :: ys)
  end.

End JS.

(** ** [form_builder.ts] *)
Module Builder.
Import JS.

(** Modelled from the spec: the constructors of [FormControl], [FormGroup]
    and [FormArray] live in [model.ts]; each is taken to allocate an instance
    of its class, a subclass of [AbstractControl], that records the arguments
    it was constructed with (spec section 6, public construction API).  What
    a constructor goes on to do with its arguments, such as running the
    validators, is not part of this model. *)
Definition new_FormControl (formState validatorOrOpts asyncValidator : any) :
    M any :=
  alloc (mkObject [FormControl; AbstractControl]
           (ControlArgs formState validatorOrOpts asyncValidator)).

Definition new_FormGroup (controls : Obj) (options : JsObject) : M any :=
  alloc (mkObject [FormGroup; AbstractControl] (GroupArgs controls options)).

Definition new_FormArray (controls : list any)
    (validatorOrOpts asyncValidator : any) : M any :=
  alloc (mkObject [FormArray; AbstractControl]
           (ArrayArgs controls validatorOrOpts asyncValidator)).

Definition isAbstractControlOptions (options : JsObject) : bool :=
  is_defined (obj_get options "asyncValidators")
  || is_defined (obj_get options "validators")
  || is_defined (obj_get options "updateOn").

Definition isBuiltinControl (c : any) : M bool :=
  b1 ← instanceof c FormControl;
  if b1 : bool then ret true else
  b2 ← instanceof c FormGroup;
  if b2 : bool then ret true else
  instanceof c FormArray.

(** [FormBuilder.control]; an argument the caller leaves out is
    [undefined]. *)
Definition control (formState validatorOrOpts asyncValidator : any) : M any :=
  new_FormControl formState validatorOrOpts asyncValidator.

Definition _createControl (controlConfig : any) : M any :=
  builtin ← isBuiltinControl controlConfig;
  if builtin : bool then ret controlConfig
  else match controlConfig with
       | JArr elems => (* Array.isArray(controlConfig) *)
           let value := index elems 0 in
           let validator :=
             if (1 <? length elems)%nat then index elems 1 else null in
           let asyncValidator :=
             if (2 <? length elems)%nat then index elems 2 else null in
           control value validator asyncValidator
       | _ => control controlConfig undefined undefined
       end.

(** The callback of [forEach] assigns into the local object [controls],
    which is threaded through the loop. *)
Fixpoint _reduceControls_loop (controlsConfig : JsObject)
    (names : list string) (controls : Obj) : M Obj :=
  match names with
  | [] => ret controls
  | controlName :: names' =>
      c ← _createControl (obj_get controlsConfig controlName);
      _reduceControls_loop controlsConfig names' (assign controls controlName c)
  end.

Definition _reduceControls (controlsConfig : JsObject) : M Obj :=
  _reduceControls_loop controlsConfig (Object_keys controlsConfig)
    empty_object.

(** [FormBuilder.group]; [options] is [None] for [null] and for an omitted
    argument. *)
Definition group (controlsConfig : JsObject) (options : option JsObject) :
    M any :=
  controls ← _reduceControls controlsConfig;
  let '(validators, asyncValidators, updateOn) :=
    match options with
    | Some options =>
        if isAbstractControlOptions options then
          (if not_nullish (obj_get options "validators")
           then obj_get options "validators" else null,
           if not_nullish (obj_get options "asyncValidators")
           then obj_get options "asyncValidators" else null,
           if not_nullish (obj_get options "updateOn")
           then obj_get options "updateOn" else undefined)
        else
          (if not_nullish (obj_get options "validator")
           then obj_get options "validator" else null,
           if not_nullish (obj_get options "asyncValidator")
           then obj_get options "asyncValidator" else null,
           undefined)
    | None => (null, null, undefined)
    end in
  new_FormGroup controls
    [("asyncValidators", asyncValidators); ("updateOn", updateOn);
     ("validators", validators)].

(** [FormBuilder.array]. *)
Definition array (controlsConfig : list any)
    (validatorOrOpts asyncValidator : any) : M any :=
  controls ← mapM _createControl controlsConfig;
  new_FormArray controls validatorOrOpts asyncValidator.

End Builder.

(** ** The control tree *)
Module Model.
Import JS.

(** [o] has an own property [k], and its value. *)
Fixpoint obj_lookup {A} (o : list (string * A)) (k : string) : option A :=
  match o with
  | [] => None
  | (k', v) :: o' => if String.eqb k' k then Some v else obj_lookup o' k
  end.

(** Replace the entry under [k], if there is one. *)
Fixpoint set_field {A} (o : list (string * A)) (k : string) (x : A) :
    list (string * A) :=
  match o with
  | [] => []
  | (k', v) :: o' =>
      if String.eqb k' k then (k', x) :: o' else (k', v) :: set_field o' k x
  end.

(** Modelled from the spec: the control tree of [model.ts] (spec section 3).
    A node keeps its value as a field of its own; a composite's value is
    recomputed from the children when the node is recomputed.  A leaf also
    keeps the value it was constructed with, for [reset].  Of the status only
    DISABLED bears on values: [disabled] is the status, [own] records that
    the node was disabled by a call on itself rather than by an ancestor,
    so that enabling the ancestor can restore the enabled subset.  Validators,
    errors and the interaction flags never touch a value and are left out. *)
Inductive Control : Type :=
| Leaf (value initial : any) (disabled own : bool)
| Group (controls : list (string * Control)) (value : list (string * any))
    (disabled own : bool)
| List (controls : list Control) (value : list any) (disabled own : bool).

(** The [value] accessor. *)
Definition value (c : Control) : any :=
  match c with
  | Leaf v _ _ _ => v
  | Group _ m _ _ => JObj m
  | List _ vs _ _ => JArr vs
  end.

Definition disabled (c : Control) : bool :=
  match c with
  | Leaf _ _ d _ | Group _ _ d _ | List _ _ d _ => d
  end.

Definition enabled (c : Control) : bool := negb (disabled c).

(** Modelled from the spec: the value of a group is the mapping of
    [{name: child.value}] for every enabled child, in declared order; the
    value of a list is the sequence of [child.value] for every enabled child,
    in index order (spec section 3). *)
Definition group_value (cs : list (string * Control)) : list (string * any) :=
  omap (λ kc, if enabled kc.2 then Some (kc.1, value kc.2) else None) cs.

Definition list_value (cs : list Control) : list any :=
  omap (λ c, if enabled c then Some (value c) else None) cs.

(** Modelled from the spec: a composite is constructed from its children and
    computes its value from them; a leaf from its value or a
    [{value, disabled}] state (spec sections 3 and 6). *)
Definition new_leaf (v : any) (d : bool) : Control := Leaf v v d d.

Definition mk_group (cs : list (string * Control)) (d own : bool) : Control :=
  Group cs (group_value cs) d own.

Definition mk_list (cs : list Control) (d own : bool) : Control :=
  List cs (list_value cs) d own.

Definition new_group (cs : list (string * Control)) : Control :=
  mk_group cs false false.

Definition new_list (cs : list Control) : Control := mk_list cs false false.

(** Modelled from the spec: the value recomputation of
    [updateValueAndValidity], a pull from the children (spec section 4.1). *)
Definition recompute (c : Control) : Control :=
  match c with
  | Leaf v i d o => Leaf v i d o
  | Group cs _ d o => mk_group cs d o
  | List cs _ d o => mk_list cs d o
  end.

(** Traversals of the children of a composite. *)
Definition map_fields {A B} (f : string → A → B) :
    list (string * A) → list (string * B) :=
  fix go cs :=
    match cs with
    | [] => []
    | (k, c) :: cs' => (k, f k c) :: go cs'
    end.

Definition map_indexed {A B} (f : nat → A → B) : nat → list A → list B :=
  fix go i cs :=
    match cs with
    | [] => []
    | c :: cs' => f i c :: go (S i) cs'
    end.

Definition traverse_fields {A} (f : string → A → option A) :
    list (string * A) → option (list (string * A)) :=
  fix go cs :=
    match cs with
    | [] => Some []
    | (k, c) :: cs' =>
        match f k c, go cs' with
        | Some c', Some cs'' => Some ((k, c') :: cs'')
        | _, _ => None
        end
    end.

Definition traverse_indexed {A} (f : nat → A → option A) :
    nat → list A → option (list A) :=
  fix go i cs :=
    match cs with
    | [] => Some []
    | c :: cs' =>
        match f i c, go (S i) cs' with
        | Some c', Some cs'' => Some (c' :: cs'')
        | _, _ => None
        end
    end.

(** Modelled from the spec: [disable()] gives the node and, recursively, all
    its descendants the status DISABLED; [enable()] removes it from the node
    and restores the enabled subset below: a descendant disabled by a call of
    its own stays disabled, with everything under it (spec section 4.1). *)
Fixpoint disable_all (c : Control) : Control :=
  match c with
  | Leaf v i _ o => Leaf v i true o
  | Group cs _ _ o => mk_group (map_fields (λ _, disable_all) cs) true o
  | List cs _ _ o => mk_list (map_indexed (λ _, disable_all) 0 cs) true o
  end.

Fixpoint restore (c : Control) : Control :=
  match c with
  | Leaf v i _ o => Leaf v i o o
  | Group cs m d o =>
      if o then Group cs m d o
      else mk_group (map_fields (λ _, restore) cs) false o
  | List cs vs d o =>
      if o then List cs vs d o
      else mk_list (map_indexed (λ _, restore) 0 cs) false o
  end.

Definition disable (c : Control) : Control :=
  match c with
  | Leaf v i _ _ => Leaf v i true true
  | Group cs _ _ _ => mk_group (map_fields (λ _, disable_all) cs) true true
  | List cs _ _ _ => mk_list (map_indexed (λ _, disable_all) 0 cs) true true
  end.

Definition enable (c : Control) : Control :=
  match c with
  | Leaf v i _ _ => Leaf v i false false
  | Group cs _ _ _ => mk_group (map_fields (λ _, restore) cs) false false
  | List cs _ _ _ => mk_list (map_indexed (λ _, restore) 0 cs) false false
  end.

(** Modelled from the spec: [setValue(v)] replaces the value of a leaf; on a
    group [v] must be an object whose keys are exactly the keys of the
    enabled children, on a list an array that supplies the index of every
    enabled child and no index past the end; the enabled children are set
    from it and the value is recomputed.  [None] is the ShapeMismatch
    failure, which applies nothing (spec sections 4.1 and 7). *)
Definition group_shape_ok (cs : list (string * Control))
    (m : list (string * any)) : bool :=
  forallb (λ kc, disabled kc.2 || bool_decide (is_Some (obj_lookup m kc.1))) cs
  && forallb (λ kv, match obj_lookup cs kv.1 with
                    | Some c => enabled c
                    | None => false
                    end) m.

Definition list_shape_ok (cs : list Control) (vs : list any) : bool :=
  forallb (λ ic, disabled ic.2 || bool_decide (ic.1 < length vs))
    (imap pair cs)
  && bool_decide (length vs ≤ length cs).

Fixpoint setValue (c : Control) (v : any) : option Control :=
  match c with
  | Leaf _ i d o => Some (Leaf v i d o)
  | Group cs _ d o =>
      match v with
      | JObj m =>
          if group_shape_ok cs m then
            cs' ← traverse_fields
                    (λ k c, if enabled c then setValue c (obj_get m k)
                            else Some c) cs;
            Some (mk_group cs' d o)
          else None
      | _ => None
      end
  | List cs _ d o =>
      match v with
      | JArr vs =>
          if list_shape_ok cs vs then
            cs' ← traverse_indexed
                    (λ i c, if enabled c then setValue c (index vs i)
                            else Some c) 0 cs;
            Some (mk_list cs' d o)
          else None
      | _ => None
      end
  end.

(** Modelled from the spec: [patchValue(v)] is the partial [setValue]: a
    key or index of [v] updates the child it names, keys and indices that [v]
    lacks leave their child unchanged, and keys that name no child are
    ignored (spec section 4.1). *)
Fixpoint patchValue (c : Control) (v : any) : Control :=
  match c with
  | Leaf _ i d o => Leaf v i d o
  | Group cs m d o =>
      match v with
      | JObj props =>
          mk_group
            (map_fields (λ k c, match obj_lookup props k with
                                | Some x => patchValue c x
                                | None => c
                                end) cs) d o
      | _ => Group cs m d o
      end
  | List cs vs d o =>
      match v with
      | JArr xs =>
          mk_list
            (map_indexed (λ i c, match xs !! i with
                                 | Some x => patchValue c x
                                 | None => c
                                 end) 0 cs) d o
      | _ => List cs vs d o
      end
  end.

(** Modelled from the spec: [reset(v?)] restores the value, the supplied one
    or else the default, through the whole subtree (spec section 4.1). *)
Fixpoint reset (c : Control) (v : option any) : Control :=
  match c with
  | Leaf _ i d o => Leaf (default i v) i d o
  | Group cs _ d o =>
      mk_group
        (map_fields (λ k c, reset c match v with
                                    | Some (JObj props) => obj_lookup props k
                                    | _ => None
                                    end) cs) d o
  | List cs _ d o =>
      mk_list
        (map_indexed (λ i c, reset c match v with
                                     | Some (JArr xs) => xs !! i
                                     | _ => None
                                     end) 0 cs) d o
  end.

(** A path names a descendant: a key into a group or an index into a list
    at each step. *)
Inductive segment : Type :=
| Key (k : string)
| Index (i : nat).

Definition child (c : Control) (s : segment) : option Control :=
  match c, s with
  | Group cs _ _ _, Key k => obj_lookup cs k
  | List cs _ _ _, Index i => cs !! i
  | _, _ => None
  end.

Definition set_child (c : Control) (s : segment) (c' : Control) : Control :=
  match c, s with
  | Group cs m d o, Key k => Group (set_field cs k c') m d o
  | List cs vs d o, Index i => List (<[i:=c']> cs) vs d o
  | _, _ => c
  end.

(** [get(path)]: the descendant at [path], if there is one. *)
Fixpoint get (c : Control) (p : list segment) : option Control :=
  match p with
  | [] => Some c
  | s :: p' => c' ← child c s; get c' p'
  end.

(** Modelled from the spec: an operation on a node is applied to the node,
    then every ancestor up to the root recomputes its value from its
    children; with [propagate = false] (the self-only request) the ancestors
    are left as they are (spec sections 2 and 4.1). *)
Fixpoint update_at (propagate : bool) (f : Control → option Control)
    (p : list segment) (c : Control) : option Control :=
  match p with
  | [] => f c
  | s :: p' =>
      c' ← child c s;
      c'' ← update_at propagate f p' c';
      Some (if propagate then recompute (set_child c s c'')
            else set_child c s c'')
  end.

(** Modelled from the spec: the operations of the Control contract that
    bear on values, each called on a node of the tree; only
    [updateValueAndValidity] can be asked not to propagate (spec
    section 4.1). *)
Inductive operation : Type :=
| SetValue (v : any)
| PatchValue (v : any)
| Reset (v : option any)
| Disable
| Enable
| UpdateValueAndValidity (onlySelf : bool).

Definition on_node (op : operation) (c : Control) : option Control :=
  match op with
  | SetValue v => setValue c v
  | PatchValue v => Some (patchValue c v)
  | Reset v => Some (reset c v)
  | Disable => Some (disable c)
  | Enable => Some (enable c)
  | UpdateValueAndValidity _ => Some (recompute c)
  end.

Definition propagates (op : operation) : bool :=
  match op with
  | UpdateValueAndValidity onlySelf => negb onlySelf
  | _ => true
  end.

(** [perform op p root]: call [op] on the descendant of [root] at [p]. *)
Definition perform (op : operation) (p : list segment) (root : Control) :
    option Control :=
  update_at (propagates op) (on_node op) p root.

(** Modelled from the spec: the states a tree can be in are what the
    constructors build, a group from distinct names, and whatever the
    operations make of such a tree (spec section 3, lifecycle). *)
Inductive reachable : Control → Prop :=
| reachable_leaf v d : reachable (new_leaf v d)
| reachable_group cs :
    NoDup cs.*1 → (∀ k c, (k, c) ∈ cs → reachable c) →
    reachable (new_group cs)
| reachable_list cs : (∀ c, c ∈ cs → reachable c) → reachable (new_list cs)
| reachable_step op p c c' :
    reachable c → perform op p c = Some c' → reachable c'.

(** Every composite of the tree holds the value its children give it, and
    the names of a group are distinct. *)
Inductive consistent : Control → Prop :=
| consistent_leaf v i d o : consistent (Leaf v i d o)
| consistent_group cs d o :
    NoDup cs.*1 → (∀ k c, (k, c) ∈ cs → consistent c) →
    consistent (mk_group cs d o)
| consistent_list cs d o :
    (∀ c, c ∈ cs → consistent c) → consistent (mk_list cs d o).

(** Shapes of values.  [Record] is a declared shape [{k: T}], with every key
    present; [Partial] is [Partial<{k: T}>], where any key may be missing;
    [ArrayOf] is an array whose elements each have one of the given
    shapes. *)
Inductive Shape : Type :=
| Opaque
| Record (fields : list (string * Shape))
| Partial (fields : list (string * Shape))
| ArrayOf (elems : list Shape).

(** The declared shape of a control, from the controls it is built of. *)
Fixpoint declared_shape (c : Control) : Shape :=
  match c with
  | Leaf _ _ _ _ => Opaque
  | Group cs _ _ _ => Record (map_fields (λ _, declared_shape) cs)
  | List cs _ _ _ => ArrayOf (map_indexed (λ _, declared_shape) 0 cs)
  end.

(** Modelled from the spec: the type of the [value] accessor is the declared
    shape made partial at every group, at every nesting level (spec
    section 3; the [ValueType]s of the typed-forms tests). *)
Fixpoint partial (s : Shape) : Shape :=
  match s with
  | Opaque => Opaque
  | Record fs | Partial fs => Partial (map_fields (λ _, partial) fs)
  | ArrayOf ss => ArrayOf (map_indexed (λ _, partial) 0 ss)
  end.

Definition value_shape (c : Control) : Shape := partial (declared_shape c).

(** [has_shape v s]: the value [v] inhabits the shape [s]. *)
Inductive has_shape : any → Shape → Prop :=
| has_opaque v : has_shape v Opaque
| has_record m fs : has_fields m fs → has_shape (JObj m) (Record fs)
| has_partial m fs : has_some_fields m fs → has_shape (JObj m) (Partial fs)
| has_array vs ss :
    Forall (λ v, Exists (has_shape v) ss) vs → has_shape (JArr vs) (ArrayOf ss)
with has_fields : list (string * any) → list (string * Shape) → Prop :=
| fields_nil : has_fields [] []
| fields_cons k v s m fs :
    has_shape v s → has_fields m fs → has_fields ((k, v) :: m) ((k, s) :: fs)
with has_some_fields : list (string * any) → list (string * Shape) → Prop :=
| some_fields_nil : has_some_fields [] []
| some_fields_skip k s m fs :
    has_some_fields m fs → has_some_fields m ((k, s) :: fs)
| some_fields_keep k v s m fs :
    has_shape v s → has_some_fields m fs →
    has_some_fields ((k, v) :: m) ((k, s) :: fs).

(** Scenario 7 of the spec's testable properties: the group built from
    [{a: 'x', b: 0}], and the same group with [b] disabled. *)
Definition scenario_group : Control :=
  new_group [("a", new_leaf (JStr "x") false); ("b", new_leaf (JNum 0) false)].

Definition scenario_group_b_disabled : Control :=
  Group [("a", Leaf (JStr "x") (JStr "x") false false);
         ("b", Leaf (JNum 0) (JNum 0) true true)]
    [("a", JStr "x")] false false.

(** The groups of the typed-forms tests: [new FormGroup({c: new
    FormControl('')})], whose value type is [Partial<{c: string}>], and
    [new FormGroup({outer: new FormGroup({inner: new FormControl('')})})],
    whose value type is [Partial<{outer: Partial<{inner: string}>}>]. *)
Definition inferred_group : Control :=
  new_group [("c", new_leaf (JStr "") false)].

Definition nested_group : Control :=
  new_group [("outer", new_group [("inner", new_leaf (JStr "") false)])].

(** A control built of leaves and lists only: the controls of the
    [FormControl] and [FormArray] typed-forms tests. *)
Fixpoint group_free (c : Control) : bool :=
  match c with
  | Leaf _ _ _ _ => true
  | Group _ _ _ _ => false
  | List cs _ _ _ => forallb group_free cs
  end.

(** A list of three leaves, the second of them disabled. *)
Definition scenario_list : Control :=
  new_list [new_leaf (JStr "x") false; new_leaf (JStr "y") true;
            new_leaf (JStr "z") false].

End Model.

(** ** Vocabulary for the statements about the builder *)
Module BuilderSpec.
Import JS Builder.

(** The instance a value refers to, if any. *)
Definition deref (h : heap) (v : any) : option object :=
  match v with JRef l => h !! l | _ => None end.

(** [v] is an instance of class [C] in heap [h]. *)
Definition is_instance (h : heap) (v : any) (C : class) : bool :=
  match deref h v with
  | Some o => bool_decide (C ∈ prototype_chain o)
  | None => false
  end.

(** [v] is an instance of one of the three built-in control classes. *)
Definition builtin (h : heap) (v : any) : bool :=
  is_instance h v FormControl || is_instance h v FormGroup
  || is_instance h v FormArray.

(** A reference in a configuration refers to an instance that exists. *)
Definition closed (h : heap) (v : any) : Prop :=
  match v with JRef l => l < length h | _ => True end.

(** A leaf control as [new FormControl] leaves it on the heap. *)
Definition leaf (formState validatorOrOpts asyncValidator : any) : object :=
  mkObject [FormControl; AbstractControl]
    (ControlArgs formState validatorOrOpts asyncValidator).

(** The leaf a shorthand stands for, in the words of spec section 4.3: a
    tuple gives the state and the validators that are present, anything else
    is the state itself. *)
Definition leaf_for (cfg : any) : object :=
  match cfg with
  | JArr elems =>
      leaf (index elems 0)
        (match elems !! 1 with Some f => f | None => null end)
        (match elems !! 2 with Some g => g | None => null end)
  | _ => leaf cfg undefined undefined
  end.

(** [r] is the normalization of the child configuration [cfg]: [cfg] itself
    when it is a built-in control of the heap [h] the factory started from,
    and otherwise a leaf control for [cfg] that the factory allocated. *)
Definition normalized (h h' : heap) (cfg r : any) : Prop :=
  if builtin h cfg then r = cfg
  else ∃ l, r = JRef l ∧ length h ≤ l ∧ h' !! l = Some (leaf_for cfg).

Definition is_leaf (o : object) : Prop :=
  ∃ s v a, o = leaf s v a.

(** [h'] is [h] with some freshly constructed leaf controls added: nothing
    that existed was touched. *)
Definition only_constructs (h h' : heap) : Prop :=
  ∃ fresh, h' = h ++ fresh ∧ Forall is_leaf fresh.

(** The options object [FormBuilder.group] passes to [new FormGroup]. *)
Definition group_options (validators asyncValidators updateOn : any) :
    JsObject :=
  [("asyncValidators", asyncValidators); ("updateOn", updateOn);
   ("validators", validators)].

Definition form_group (controls : Obj) (options : JsObject) : object :=
  mkObject [FormGroup; AbstractControl] (GroupArgs controls options).

Definition form_array (controls : list any) (v a : any) : object :=
  mkObject [FormArray; AbstractControl] (ArrayArgs controls v a).

(** [v ?? d] for [v != null ? v : d]. *)
Definition or_else (v d : any) : any := if not_nullish v then v else d.

(** The child-configuration shapes of spec section 4.3: a bare value, a
    state descriptor, an existing control, or a tuple of a state and at most
    two validators.  An array of any other length is a tuple of no supported
    shape. *)
Definition supported_shape (cfg : any) : bool :=
  match cfg with
  | JArr elems => bool_decide (1 ≤ length elems ≤ 3)
  | _ => true
  end.

(** [r] is what [group] hands on for an option: the value under the key
    [modern] when the options are in the modern form, under the key [legacy]
    (if the option has one) when they are in the legacy form, and the
    default [d] when there are no options, no key to read, or the value
    read is [null] or [undefined]. *)
Definition handed_on (options : option JsObject) (modern : string)
    (legacy : option string) (d r : any) : Prop :=
  match options with
  | None => r = d
  | Some o =>
      match (if isAbstractControlOptions o then Some modern else legacy) with
      | None => r = d
      | Some key =>
          (not_nullish (obj_get o key) = true ∧ r = obj_get o key)
          ∨ (not_nullish (obj_get o key) = false ∧ r = d)
      end
  end.

(** The supported tuple that an array configuration is read as: its first
    three elements, [undefined] for a missing first element and [null] for a
    missing second or third. *)
Definition as_tuple (elems : list any) : list any :=
  [index elems 0;
   match elems !! 1 with Some f => f | None => null end;
   match elems !! 2 with Some g => g | None => null end].

(** A configuration with an own property [__proto__], as [JSON.parse] or a
    computed key makes one. *)
Definition proto_config : JsObject :=
  [("a", JStr "x"); ("__proto__", JStr "p")].

(** Sample heaps and configurations: a heap with one instance of a class
    that extends [AbstractControl] directly; a heap with one leaf control
    and a configuration that mixes the three kinds of shorthand. *)
Definition custom_control_heap : heap :=
  [mkObject [UserClass "MyControl"; AbstractControl] Foreign].

Definition sample_heap : heap := [leaf (JStr "x") undefined undefined].

(** Modern options that also carry a legacy key. *)
Definition sample_options : JsObject :=
  [("updateOn", JStr "blur"); ("validator", JFn "f")].

Definition sample_config : JsObject :=
  [("b", JStr "y"); ("1", JArr [JNum 0; JFn "required"]); ("c", JRef 0)].

End BuilderSpec.

(** ** Facts about the JavaScript fragment *)
Module JSFacts.
Import JS.

Lemma obj_get_set_ne (o : JsObject) k k' v :
  k ≠ k' → obj_get (obj_set o k v) k' = obj_get o k'.
Proof.
  intros Hne. induction o as [|[k0 v0] o IH]; simpl.
  - destruct (String.eqb k "__proto__"); [done|]. simpl.
    by destruct (String.eqb_spec k k').
  - destruct (String.eqb_spec k0 k) as [->|Hk]; simpl.
    + by destruct (String.eqb_spec k k').
    + by rewrite IH.
Qed.

Lemma own_property_None (o : JsObject) k : own_property o k = None ↔ k ∉ o.*1.
Proof.
  induction o as [|[k0 v0] o IH]; simpl.
  - split; [intros _; apply not_elem_of_nil|done].
  - rewrite not_elem_of_cons. destruct (String.eqb_spec k0 k) as [->|Hne].
    + split; [done|]. by intros [? _].
    + rewrite IH. split; [by intros ?; split|by intros [_ ?]].
Qed.

Lemma own_property_set_ne (o : JsObject) k k' v :
  k ≠ k' → own_property (obj_set o k v) k' = own_property o k'.
Proof.
  intros Hne. induction o as [|[k0 v0] o IH]; simpl.
  - destruct (String.eqb k "__proto__"); [done|]. simpl.
    by destruct (String.eqb_spec k k').
  - destruct (String.eqb_spec k0 k) as [->|Hk]; simpl.
    + by destruct (String.eqb_spec k k').
    + by rewrite IH.
Qed.

(** An assignment is read back from the own properties, unless it went to
    the setter of [__proto__]. *)
Lemma own_property_set_eq (o : JsObject) k v :
  k ≠ "__proto__" ∨ is_Some (own_property o k) →
  own_property (obj_set o k v) k = Some v.
Proof.
  induction o as [|[k0 v0] o IH]; simpl.
  - intros [Hk|[x Hx]]; [|done].
    destruct (String.eqb_spec k "__proto__"); [done|]. simpl.
    by rewrite String.eqb_refl.
  - destruct (String.eqb_spec k0 k) as [->|Hne]; simpl.
    + by rewrite String.eqb_refl.
    + destruct (String.eqb_spec k0 k); [done|]. apply IH.
Qed.

Lemma obj_set_proto (o : JsObject) v :
  own_property o "__proto__" = None → obj_set o "__proto__" v = o.
Proof.
  induction o as [|[k0 v0] o IH]; simpl; [done|].
  destruct (String.eqb_spec k0 "__proto__"); [done|].
  intros Hnone. by rewrite IH.
Qed.

Lemma obj_set_keys (o : JsObject) k v k' :
  k' ∈ (obj_set o k v).*1 ↔ (k' = k ∧ k ≠ "__proto__") ∨ k' ∈ o.*1.
Proof.
  induction o as [|[k0 v0] o IH]; simpl.
  - destruct (String.eqb_spec k "__proto__") as [->|Hne]; csimpl.
    + rewrite elem_of_nil. tauto.
    + rewrite list_elem_of_singleton, elem_of_nil. tauto.
  - destruct (String.eqb_spec k0 k) as [->|Hk]; csimpl;
      rewrite !elem_of_cons; [|rewrite IH]; tauto.
Qed.

(** An assigned object or function is what the property reads afterwards,
    also under [__proto__]. *)
Lemma read_assign_eq o k v : is_object v = true → read (assign o k v) k = Some v.
Proof.
  intros Hv. unfold read, assign. simpl.
  destruct (own_property (props o) k) as [x|] eqn:Hown.
  - rewrite own_property_set_eq; [done|]. right. by rewrite Hown.
  - destruct (String.eqb_spec k "__proto__") as [->|Hne].
    + rewrite obj_set_proto, Hown by done. by destruct v.
    + rewrite own_property_set_eq; [done|by left].
Qed.

Lemma read_assign_ne o k k' v : k ≠ k' → read (assign o k v) k' = read o k'.
Proof.
  intros Hne. unfold read, assign. simpl.
  rewrite own_property_set_ne by done.
  destruct (own_property (props o) k'); [done|].
  destruct (String.eqb_spec k' "__proto__") as [->|_]; [|done].
  by destruct (String.eqb_spec k "__proto__").
Qed.

Lemma assign_keys o k v k' :
  k' ∈ (props (assign o k v)).*1
  ↔ (k' = k ∧ k ≠ "__proto__") ∨ k' ∈ (props o).*1.
Proof. apply obj_set_keys. Qed.

Lemma insert_sorted_elem x y l : x ∈ insert_sorted y l ↔ x = y ∨ x ∈ l.
Proof.
  induction l as [|z l IH]; simpl.
  - rewrite list_elem_of_singleton, elem_of_nil. tauto.
  - destruct (y.1 <=? z.1)%N; rewrite !elem_of_cons; [|rewrite IH]; tauto.
Qed.

Lemma sort_indices_elem x l : x ∈ sort_indices l ↔ x ∈ l.
Proof.
  induction l as [|y l IH]; simpl; [done|].
  by rewrite insert_sorted_elem, elem_of_cons, IH.
Qed.

(** [Object.keys] enumerates exactly the property names of the object. *)
Lemma Object_keys_elem (o : JsObject) k : k ∈ Object_keys o ↔ k ∈ o.*1.
Proof.
  unfold Object_keys. rewrite elem_of_app, list_elem_of_filter. split.
  - intros [Hin|[_ Hin]]; [|done].
    apply list_elem_of_fmap in Hin as ([n k'] & -> & Hin).
    apply sort_indices_elem, list_elem_of_omap in Hin as (k0 & Hk0 & Hidx).
    unfold index_key in Hidx. destruct (array_index k0); by simplify_eq.
  - intros Hin. destruct (array_index k) as [n|] eqn:Hidx; [left|by right].
    apply list_elem_of_fmap. exists (n, k). split; [done|].
    apply sort_indices_elem, list_elem_of_omap. exists k. split; [done|].
    unfold index_key. by rewrite Hidx.
Qed.

End JSFacts.

(** ** Facts about the builder *)
Module BuilderFacts.
Import JS Builder BuilderSpec JSFacts.

Lemma bind_eq {A B} (m : M A) (k : A → M B) h :
  (m ≫= k) h = match m h with Returns a h' => k a h' | Throws e => Throws e end.
Proof. reflexivity. Qed.

Lemma instanceof_eq v C h : instanceof v C h = Returns (is_instance h v C) h.
Proof. by destruct v. Qed.

Lemma isBuiltinControl_eq c h : isBuiltinControl c h = Returns (builtin h c) h.
Proof.
  unfold isBuiltinControl, builtin. rewrite bind_eq, instanceof_eq.
  destruct (is_instance h c FormControl); [done|].
  rewrite bind_eq, instanceof_eq.
  destruct (is_instance h c FormGroup); [done|]. by rewrite instanceof_eq.
Qed.

(** Allocation does not change what the existing instances are. *)
Lemma builtin_app h fresh v : closed h v → builtin (h ++ fresh) v = builtin h v.
Proof.
  unfold builtin, is_instance, deref, closed. destruct v; try done.
  intros Hl. by rewrite lookup_app_l.
Qed.

Lemma index_present (elems : list any) i :
  (if (i <? length elems)%nat then index elems i else null)
  = match elems !! i with Some x => x | None => null end.
Proof.
  unfold index. destruct (Nat.ltb_spec i (length elems)) as [Hlt|Hge].
  - destruct (lookup_lt_is_Some_2 elems i Hlt) as [x Hx].
    rewrite Hx. by apply nth_lookup_Some.
  - by rewrite lookup_ge_None_2.
Qed.

(** The three branches of [_createControl] in one equation. *)
Lemma createControl_eq cfg h :
  _createControl cfg h =
    if builtin h cfg then Returns cfg h
    else Returns (JRef (length h)) (h ++ [leaf_for cfg]).
Proof.
  unfold _createControl. rewrite bind_eq, isBuiltinControl_eq.
  destruct (builtin h cfg) eqn:Hb; [done|].
  destruct cfg; try done.
  unfold control, new_FormControl, alloc, leaf_for, leaf.
  by rewrite !index_present.
Qed.

Lemma only_constructs_refl h : only_constructs h h.
Proof. exists []. by rewrite app_nil_r. Qed.

Lemma only_constructs_trans h1 h2 h3 :
  only_constructs h1 h2 → only_constructs h2 h3 → only_constructs h1 h3.
Proof.
  intros (f1 & -> & H1) (f2 & -> & H2). exists (f1 ++ f2).
  split; [by rewrite app_assoc|by apply Forall_app].
Qed.

Lemma leaf_for_is_leaf cfg : is_leaf (leaf_for cfg).
Proof. unfold is_leaf, leaf_for. destruct cfg; eauto. Qed.

Lemma normalized_mono h h1 h2 cfg r :
  only_constructs h1 h2 → normalized h h1 cfg r → normalized h h2 cfg r.
Proof.
  intros (fresh & -> & _). unfold normalized.
  destruct (builtin h cfg); [done|].
  intros (l & -> & Hl & Hlook). exists l. repeat split; [done|].
  by apply lookup_app_l_Some.
Qed.

(** One call of [_createControl] from a heap [h1] that extends [h]. *)
Lemma createControl_normalizes h h1 cfg :
  only_constructs h h1 → closed h cfg →
  ∃ r h2, _createControl cfg h1 = Returns r h2
    ∧ only_constructs h1 h2 ∧ normalized h h2 cfg r.
Proof.
  intros (fresh & -> & Hfresh) Hcl. rewrite createControl_eq, builtin_app by done.
  unfold normalized. destruct (builtin h cfg) eqn:Hb.
  - exists cfg, (h ++ fresh). split; [done|]. split; [apply only_constructs_refl|done].
  - eexists _, _. split; [done|]. split.
    + exists [leaf_for cfg]. split; [done|].
      apply Forall_singleton, leaf_for_is_leaf.
    + exists (length (h ++ fresh)). split; [done|]. split.
      * rewrite length_app. lia.
      * by rewrite lookup_app_r, Nat.sub_diag.
Qed.

Lemma builtin_is_ref h v : builtin h v = true → ∃ l, v = JRef l ∧ l < length h.
Proof.
  unfold builtin, is_instance, deref. destruct v; try done.
  destruct (h !! l) eqn:Hl; [|done]. intros _. exists l. split; [done|].
  by eapply lookup_lt_Some.
Qed.

(** A normalization is a reference to an instance. *)
Lemma normalized_is_object h h' cfg r : normalized h h' cfg r → is_object r = true.
Proof.
  unfold normalized. destruct (builtin h cfg) eqn:Hb.
  - intros ->. by apply builtin_is_ref in Hb as (l & -> & _).
  - by intros (l & -> & _).
Qed.

(** The loop of [_reduceControls], started from any heap [h1] reached from
    [h] by construction and from any partial result [controls]. *)
Lemma reduceControls_loop_spec cfg h names :
  (∀ k, closed h (obj_get cfg k)) →
  ∀ controls h1, only_constructs h h1 →
  ∃ controls' h2,
    _reduceControls_loop cfg names controls h1 = Returns controls' h2
    ∧ only_constructs h1 h2
    ∧ (∀ k, k ∈ (props controls').*1
            ↔ (k ∈ names ∧ k ≠ "__proto__") ∨ k ∈ (props controls).*1)
    ∧ (∀ k, k ∉ names → read controls' k = read controls k)
    ∧ (∀ k, k ∈ names →
         ∃ r, read controls' k = Some r ∧ normalized h h2 (obj_get cfg k) r).
Proof.
  intros Hcl. induction names as [|name names IH]; intros controls h1 Hh1.
  - exists controls, h1. split; [done|]. split; [apply only_constructs_refl|].
    split; [|split]; [intros k; rewrite elem_of_nil; tauto|done|].
    intros k Hk. by apply elem_of_nil in Hk.
  - destruct (createControl_normalizes h h1 (obj_get cfg name) Hh1 (Hcl name))
      as (r & h2 & Hrun & Hh2 & Hnorm).
    destruct (IH (assign controls name r) h2) as
      (controls' & h3 & Hloop & Hh3 & Hkeys & Hkeep & Hall);
      [by eapply only_constructs_trans|].
    exists controls', h3. simpl. rewrite bind_eq, Hrun.
    split; [done|]. split; [by eapply only_constructs_trans|].
    split; [|split].
    + intros k. rewrite Hkeys, assign_keys, elem_of_cons. naive_solver.
    + intros k Hk. apply not_elem_of_cons in Hk as [Hne Hk].
      rewrite Hkeep by done. by apply read_assign_ne.
    + intros k Hk. destruct (decide (k ∈ names)) as [Hin|Hnin]; [by apply Hall|].
      apply elem_of_cons in Hk as [->|Hk]; [|done].
      exists r. rewrite Hkeep by done.
      split; [by eapply read_assign_eq, normalized_is_object|].
      by eapply normalized_mono.
Qed.

Lemma reduceControls_spec cfg h :
  (∀ k, closed h (obj_get cfg k)) →
  ∃ controls h',
    _reduceControls cfg h = Returns controls h'
    ∧ only_constructs h h'
    ∧ (∀ k, k ∈ (props controls).*1 ↔ k ∈ cfg.*1 ∧ k ≠ "__proto__")
    ∧ (∀ k, k ∈ cfg.*1 →
         ∃ r, read controls k = Some r ∧ normalized h h' (obj_get cfg k) r).
Proof.
  intros Hcl.
  destruct (reduceControls_loop_spec cfg h (Object_keys cfg) Hcl empty_object h
              (only_constructs_refl h))
    as (controls & h' & Hrun & Hh' & Hkeys & _ & Hall).
  exists controls, h'. split; [done|]. split; [done|]. split.
  - intros k. rewrite Hkeys, Object_keys_elem. simpl.
    rewrite elem_of_nil. tauto.
  - intros k Hk. by apply Hall, Object_keys_elem.
Qed.

(** [_reduceControls] returns whatever the configuration is. *)
Lemma reduceControls_loop_returns cfg names :
  ∀ controls h, ∃ controls' h',
    _reduceControls_loop cfg names controls h = Returns controls' h'.
Proof.
  induction names as [|name names IH]; intros controls h; simpl; [by eauto|].
  rewrite bind_eq, createControl_eq.
  destruct (builtin h (obj_get cfg name)); apply IH.
Qed.

Lemma mapM_createControl_spec h cfgs :
  Forall (closed h) cfgs →
  ∀ h1, only_constructs h h1 →
  ∃ rs h2, mapM _createControl cfgs h1 = Returns rs h2
    ∧ only_constructs h1 h2 ∧ Forall2 (normalized h h2) cfgs rs.
Proof.
  induction 1 as [|cfg cfgs Hcfg Hcfgs IH]; intros h1 Hh1.
  - exists [], h1. split; [done|]. split; [apply only_constructs_refl|constructor].
  - destruct (createControl_normalizes h h1 cfg Hh1 Hcfg)
      as (r & h2 & Hrun & Hh2 & Hnorm).
    destruct (IH h2) as (rs & h3 & Hrest & Hh3 & Hall);
      [by eapply only_constructs_trans|].
    exists (r :: rs), h3. simpl. rewrite bind_eq, Hrun, bind_eq, Hrest.
    split; [done|]. split; [by eapply only_constructs_trans|].
    constructor; [by eapply normalized_mono|done].
Qed.

Lemma mapM_createControl_returns cfgs :
  ∀ h, ∃ rs h', mapM _createControl cfgs h = Returns rs h'.
Proof.
  induction cfgs as [|cfg cfgs IH]; intros h; simpl; [by eauto|].
  rewrite bind_eq, createControl_eq.
  destruct (builtin h cfg).
  - destruct (IH h) as (rs & h' & Hrs). rewrite bind_eq, Hrs. by eauto.
  - destruct (IH (h ++ [leaf_for cfg])) as (rs & h' & Hrs).
    rewrite bind_eq, Hrs. by eauto.
Qed.

(** What [FormBuilder.group] hands to [new FormGroup], by the kind of
    [options]. *)
Lemma group_eq cfg options h :
  group cfg options h =
    (controls ← _reduceControls cfg;
     new_FormGroup controls
       match options with
       | None => group_options null null undefined
       | Some o =>
           if isAbstractControlOptions o
           then group_options (or_else (obj_get o "validators") null)
                  (or_else (obj_get o "asyncValidators") null)
                  (or_else (obj_get o "updateOn") undefined)
           else group_options (or_else (obj_get o "validator") null)
                  (or_else (obj_get o "asyncValidator") null) undefined
       end) h.
Proof.
  unfold group. rewrite !bind_eq. destruct (_reduceControls cfg h); [|done].
  destruct options as [o|]; [|done]. by destruct (isAbstractControlOptions o).
Qed.

Lemma group_returns cfg options h :
  ∃ controls opts h',
    _reduceControls cfg h = Returns controls h'
    ∧ group cfg options h
      = Returns (JRef (length h')) (h' ++ [form_group controls opts]).
Proof.
  destruct (reduceControls_loop_returns cfg (Object_keys cfg) empty_object h)
    as (controls & h' & Hrun).
  rewrite group_eq, bind_eq. unfold _reduceControls. rewrite Hrun.
  by eauto.
Qed.

(** *** Pass-through of existing controls *)

(** C3, as amended: a child configuration that is an instance of
    [FormControl], [FormGroup] or [FormArray] is returned by
    [_createControl] as it is, in an unchanged heap; and it is itself the
    control that [group] assigns under its key and that [array] puts at
    its index, while the factory only adds new instances to the heap. *)
Theorem createControl_passes_builtin_through h cfg :
  builtin h cfg = true →
  _createControl cfg h = Returns cfg h
  ∧ (∀ cfgs options k,
       (∀ k', closed h (obj_get cfgs k')) →
       k ∈ cfgs.*1 → obj_get cfgs k = cfg →
       ∃ controls opts h',
         group cfgs options h
         = Returns (JRef (length h')) (h' ++ [form_group controls opts])
         ∧ only_constructs h h' ∧ read controls k = Some cfg)
  ∧ (∀ cfgs v a i,
       Forall (closed h) cfgs → cfgs !! i = Some cfg →
       ∃ controls h',
         array cfgs v a h
         = Returns (JRef (length h')) (h' ++ [form_array controls v a])
         ∧ only_constructs h h' ∧ controls !! i = Some cfg).
Proof.
  intros Hb. split; [|split].
  - by rewrite createControl_eq, Hb.
  - intros cfgs options k Hcl Hk Hget.
    destruct (reduceControls_spec cfgs h Hcl)
      as (controls & h' & Hrun & Hh' & _ & Hall).
    destruct (group_returns cfgs options h)
      as (controls' & opts & h'' & Hrun' & Hg).
    rewrite Hrun in Hrun'. simplify_eq.
    exists controls', opts, h''. repeat split; try done.
    destruct (Hall k Hk) as (r & Hread & Hnorm). unfold normalized in Hnorm.
    rewrite Hb in Hnorm. by subst r.
  - intros cfgs v a i Hcl Hi.
    destruct (mapM_createControl_spec h cfgs Hcl h (only_constructs_refl h))
      as (rs & h' & Hrun & Hh' & Hall).
    exists rs, h'. unfold array. rewrite bind_eq, Hrun.
    repeat split; try done.
    destruct (Forall2_lookup_l _ _ _ _ _ Hall Hi) as (r & Hr & Hnorm).
    unfold normalized in Hnorm. rewrite Hb in Hnorm. by subst r.
Qed.

(** C3, as stated, fails: an instance of a class that extends
    [AbstractControl] directly is not returned as it is; a new leaf control
    is built with that instance as its state. *)
Lemma createControl_wraps_custom_control :
  is_instance custom_control_heap (JRef 0) AbstractControl = true
  ∧ _createControl (JRef 0) custom_control_heap
    = Returns (JRef 1)
        (custom_control_heap ++ [leaf (JRef 0) undefined undefined])
  ∧ _createControl (JRef 0) custom_control_heap
    ≠ Returns (JRef 0) custom_control_heap.
Proof.
  split; [reflexivity|]. split; [reflexivity|].
  intros Heq. vm_compute in Heq. discriminate Heq.
Qed.

Lemma createControl_passes_builtin_through_witness :
  builtin sample_heap (JRef 0) = true
  ∧ _createControl (JRef 0) sample_heap = Returns (JRef 0) sample_heap.
Proof.
  split; [reflexivity|].
  apply (createControl_passes_builtin_through sample_heap (JRef 0)).
  reflexivity.
Defined.

(** *** Shorthand for leaf controls *)

(** C5: for a tuple [[v, ...]] the factory builds a [FormControl] whose
    state is the first element [v], whose validator is the element at index 1
    when the array is longer than 1 and none ([null]) otherwise, and whose
    async validator is the element at index 2 when the array is longer than 2
    and none otherwise. *)
Theorem createControl_tuple v rest h :
  ∃ validator asyncValidator,
    _createControl (JArr (v :: rest)) h
    = Returns (JRef (length h)) (h ++ [leaf v validator asyncValidator])
    ∧ (if decide (1 < length (v :: rest))
       then (v :: rest) !! 1 = Some validator else validator = null)
    ∧ (if decide (2 < length (v :: rest))
       then (v :: rest) !! 2 = Some asyncValidator else asyncValidator = null).
Proof.
  rewrite createControl_eq. change (builtin h (JArr (v :: rest))) with false.
  unfold leaf_for. eexists _, _. split; [reflexivity|].
  destruct rest as [|f [|g rest]]; simpl; repeat case_decide; try done; lia.
Qed.

(** C6: for a bare value, neither a built-in control nor an array, the
    factory builds a [FormControl] with that value as its state and with no
    validator and no async validator. *)
Theorem createControl_bare_value cfg h :
  builtin h cfg = false →
  (∀ elems, cfg ≠ JArr elems) →
  _createControl cfg h
  = Returns (JRef (length h)) (h ++ [leaf cfg undefined undefined]).
Proof.
  intros Hb Harr. rewrite createControl_eq, Hb.
  destruct cfg; try done. by destruct (Harr elems).
Qed.

Lemma createControl_bare_value_witness :
  _createControl (JStr "x") []
  = Returns (JRef 0) [leaf (JStr "x") undefined undefined].
Proof.
  apply (createControl_bare_value (JStr "x") []); [reflexivity|].
  intros elems Heq. discriminate Heq.
Defined.

(** *** Construction of groups and arrays *)

(** C7 fails on the code: for the configuration
    [{a: 'x', "__proto__": 'p'}], whose two own keys [Object.keys]
    enumerates, [group] constructs a leaf control for each entry, but the
    assignment under [__proto__] goes to the inherited setter: the controls
    of the [FormGroup] have the one own key [a], and the leaf built for
    [__proto__] has become their prototype. *)
Theorem group_drops_proto_key :
  Object_keys proto_config = ["a"; "__proto__"]
  ∧ group proto_config None []
    = Returns (JRef 2)
        [leaf (JStr "x") undefined undefined;
         leaf (JStr "p") undefined undefined;
         form_group (mkObj [("a", JRef 0)] (Some (JRef 1)))
           (group_options null null undefined)]
  ∧ "__proto__" ∈ proto_config.*1
  ∧ "__proto__" ∉ [("a", JRef 0)].*1.
Proof.
  split; [reflexivity|]. split; [reflexivity|]. split; compute_done.
Qed.

Lemma sample_config_closed : ∀ k, closed sample_heap (obj_get sample_config k).
Proof.
  intros k. unfold sample_config, obj_get.
  repeat (destruct (String.eqb _ k); [simpl; try lia; exact I|]). exact I.
Defined.

(** *** Malformed shorthand *)

(** C8, as amended: an array of a length other than 1 to 3 is not
    rejected: [_createControl] does for it exactly what it does for the
    supported tuple of its first three elements, with [undefined] for a
    missing state and [null] for a missing validator. *)
Theorem createControl_unsupported_length elems h :
  supported_shape (JArr elems) = false →
  supported_shape (JArr (as_tuple elems)) = true
  ∧ _createControl (JArr elems) h = _createControl (JArr (as_tuple elems)) h.
Proof.
  intros _. split; [reflexivity|].
  rewrite !createControl_eq. change (builtin h (JArr _)) with false.
  reflexivity.
Qed.

Lemma createControl_unsupported_length_witness :
  supported_shape (JArr [undefined; null; null]) = true
  ∧ _createControl (JArr []) [] = _createControl (JArr [undefined; null; null]) [].
Proof.
  apply (createControl_unsupported_length [] []). reflexivity.
Defined.

(** C8, as stated, fails: the empty array has no supported shape, and the
    factory builds a leaf control from it instead of throwing. *)
Lemma createControl_accepts_empty_tuple :
  supported_shape (JArr []) = false
  ∧ _createControl (JArr []) [] = Returns (JRef 0) [leaf undefined null null]
  ∧ _createControl (JArr []) [] ≠ Throws ConfigurationError.
Proof.
  split; [reflexivity|]. split; [reflexivity|].
  intros Heq. vm_compute in Heq. discriminate Heq.
Qed.

(** *** Options of [group] *)

Lemma is_defined_true v : is_defined v = true ↔ v ≠ undefined.
Proof. by destruct v. Qed.

(** The guard of [group] holds exactly when one of the three modern keys has
    a value other than [undefined]. *)
Lemma isAbstractControlOptions_true o :
  obj_get o "validators" ≠ undefined
  ∨ obj_get o "asyncValidators" ≠ undefined
  ∨ obj_get o "updateOn" ≠ undefined
  ↔ isAbstractControlOptions o = true.
Proof.
  unfold isAbstractControlOptions.
  rewrite !orb_true_iff, !is_defined_true. tauto.
Qed.

(** C4: the legacy options [{validator: f, asyncValidator: g}] give the same
    [FormGroup] (same controls, validators, async validators and [updateOn])
    as the options [{validators: f, asyncValidators: g}]. *)
Theorem group_legacy_options_alias cfg f g h :
  group cfg (Some [("validator", f); ("asyncValidator", g)]) h
  = group cfg (Some [("validators", f); ("asyncValidators", g)]) h
  ∧ ∃ controls h',
      group cfg (Some [("validator", f); ("asyncValidator", g)]) h
      = Returns (JRef (length h'))
          (h' ++ [form_group controls
                    (group_options (or_else f null) (or_else g null)
                       undefined)]).
Proof.
  destruct (reduceControls_loop_returns cfg (Object_keys cfg) empty_object h)
    as (controls & h' & Hrun).
  rewrite !group_eq, !bind_eq. unfold _reduceControls. rewrite Hrun.
  split; [|by exists controls, h'].
  do 2 f_equal. by destruct f, g.
Qed.

(** C9: when one of [validators], [asyncValidators], [updateOn] is not
    [undefined], the [FormGroup] gets those three (with [null], [null],
    [undefined] for the nullish ones), and the keys [validator] and
    [asyncValidator] of the same object contribute nothing: whatever they
    hold, the result is the same. *)
Theorem group_modern_options_ignore_legacy_keys cfg o h :
  obj_get o "validators" ≠ undefined
  ∨ obj_get o "asyncValidators" ≠ undefined
  ∨ obj_get o "updateOn" ≠ undefined →
  (∃ controls h',
     group cfg (Some o) h
     = Returns (JRef (length h'))
         (h' ++ [form_group controls
                   (group_options (or_else (obj_get o "validators") null)
                      (or_else (obj_get o "asyncValidators") null)
                      (or_else (obj_get o "updateOn") undefined))]))
  ∧ ∀ x y,
      group cfg (Some (obj_set (obj_set o "validator" x) "asyncValidator" y)) h
      = group cfg (Some o) h.
Proof.
  intros Hmodern%isAbstractControlOptions_true.
  destruct (reduceControls_loop_returns cfg (Object_keys cfg) empty_object h)
    as (controls & h' & Hrun).
  split.
  - exists controls, h'. rewrite group_eq, bind_eq. unfold _reduceControls.
    by rewrite Hrun, Hmodern.
  - intros x y. rewrite !group_eq, !bind_eq.
    unfold _reduceControls. rewrite Hrun.
    unfold isAbstractControlOptions in *.
    rewrite !obj_get_set_ne by done. by rewrite Hmodern.
Qed.

Lemma group_modern_options_ignore_legacy_keys_witness :
  obj_get sample_options "updateOn" ≠ undefined
  ∧ group [] (Some (obj_set (obj_set sample_options "validator" (JFn "g"))
                      "asyncValidator" (JFn "h"))) []
    = group [] (Some sample_options) [].
Proof.
  split; [discriminate|].
  apply (group_modern_options_ignore_legacy_keys [] sample_options []).
  right. right. discriminate.
Defined.

(** C10: options handled as the legacy shape give a [FormGroup] whose
    [updateOn] is [undefined]. *)
Theorem group_legacy_options_updateOn_undefined cfg o h :
  obj_get o "validators" = undefined →
  obj_get o "asyncValidators" = undefined →
  obj_get o "updateOn" = undefined →
  ∃ controls opts h',
    group cfg (Some o) h
    = Returns (JRef (length h')) (h' ++ [form_group controls opts])
    ∧ opts = group_options (or_else (obj_get o "validator") null)
               (or_else (obj_get o "asyncValidator") null) undefined
    ∧ obj_get opts "updateOn" = undefined.
Proof.
  intros Hv Ha Hu.
  assert (isAbstractControlOptions o = false) as Hlegacy.
  { unfold isAbstractControlOptions. by rewrite Hv, Ha, Hu. }
  destruct (reduceControls_loop_returns cfg (Object_keys cfg) empty_object h)
    as (controls & h' & Hrun).
  eexists controls, _, h'. rewrite group_eq, bind_eq. unfold _reduceControls.
  rewrite Hrun, Hlegacy. by repeat split.
Qed.

Lemma group_legacy_options_updateOn_undefined_witness :
  ∃ controls opts h',
    group [] (Some [("validator", JFn "f")]) []
    = Returns (JRef (length h')) (h' ++ [form_group controls opts])
    ∧ opts = group_options (or_else (JFn "f") null) (or_else undefined null)
               undefined
    ∧ obj_get opts "updateOn" = undefined.
Proof.
  apply (group_legacy_options_updateOn_undefined []
           [("validator", JFn "f")] []); reflexivity.
Defined.

End BuilderFacts.

(** ** Facts about the control tree *)
Module ModelFacts.
Import JS Model.

(** Induction over a control and all its descendants. *)
Lemma Control_rect' (P : Control → Prop) :
  (∀ v i d o, P (Leaf v i d o)) →
  (∀ cs m d o, (∀ k c, (k, c) ∈ cs → P c) → P (Group cs m d o)) →
  (∀ cs vs d o, (∀ c, c ∈ cs → P c) → P (List cs vs d o)) →
  ∀ c, P c.
Proof.
  intros Hleaf Hgroup Hlist.
  fix IH 1. intros [v i d o|cs m d o|cs vs d o].
  - apply Hleaf.
  - apply Hgroup.
    assert (Forall (λ kc, P kc.2) cs) as Hall.
    { induction cs as [|[k0 c0] cs IHcs]; constructor; [apply IH|exact IHcs]. }
    intros k c Hin. by apply (proj1 (Forall_forall _ _) Hall (k, c)).
  - apply Hlist.
    assert (Forall P cs) as Hall.
    { induction cs as [|c0 cs IHcs]; constructor; [apply IH|exact IHcs]. }
    intros c Hin. by apply (proj1 (Forall_forall _ _) Hall c).
Qed.

(** *** Objects *)

Lemma obj_lookup_elem {A} (o : list (string * A)) k x :
  obj_lookup o k = Some x → (k, x) ∈ o.
Proof.
  induction o as [|[k0 x0] o IH]; simpl; [done|].
  destruct (String.eqb_spec k0 k) as [->|Hne].
  - intros [= ->]. apply elem_of_cons. by left.
  - intros Hx. apply elem_of_cons. right. by apply IH.
Qed.

Lemma obj_lookup_None {A} (o : list (string * A)) k :
  obj_lookup o k = None ↔ k ∉ o.*1.
Proof.
  induction o as [|[k0 x0] o IH]; simpl.
  - split; [intros _; apply not_elem_of_nil|done].
  - rewrite not_elem_of_cons. destruct (String.eqb_spec k0 k) as [->|Hne].
    + split; [done|]. by intros [? _].
    + rewrite IH. split; [by intros ?; split|by intros [_ ?]].
Qed.

Lemma obj_lookup_is_Some {A} (o : list (string * A)) k :
  k ∈ o.*1 → is_Some (obj_lookup o k).
Proof.
  intros Hk. destruct (obj_lookup o k) eqn:Hlook; [by eauto|].
  by apply obj_lookup_None in Hlook.
Qed.

Lemma set_field_keys {A} (o : list (string * A)) k x :
  (set_field o k x).*1 = o.*1.
Proof.
  induction o as [|[k0 x0] o IH]; simpl; [done|].
  destruct (String.eqb_spec k0 k); csimpl; by rewrite ?IH.
Qed.

Lemma set_field_elem {A} (o : list (string * A)) k x k' x' :
  (k', x') ∈ set_field o k x → (k', x') ∈ o ∨ x' = x.
Proof.
  induction o as [|[k0 x0] o IH]; simpl; [by left|].
  destruct (String.eqb_spec k0 k) as [->|Hne]; rewrite !elem_of_cons.
  - intros [[= -> ->]|Hin]; [by right|by left; right].
  - intros [Heq|Hin]; [by left; left|].
    destruct (IH Hin); [by left; right|by right].
Qed.

Lemma obj_lookup_set_field {A} (o : list (string * A)) k x y :
  obj_lookup o k = Some y → obj_lookup (set_field o k x) k = Some x.
Proof.
  induction o as [|[k0 x0] o IH]; simpl; [done|].
  destruct (String.eqb_spec k0 k) as [->|Hne]; simpl.
  - by rewrite String.eqb_refl.
  - by destruct (String.eqb_spec k0 k).
Qed.

Lemma set_field_same {A} (o : list (string * A)) k x :
  obj_lookup o k = Some x → set_field o k x = o.
Proof.
  induction o as [|[k0 x0] o IH]; simpl; [done|].
  destruct (String.eqb_spec k0 k) as [->|Hne].
  - by intros [= ->].
  - intros Hx. by rewrite IH.
Qed.

(** *** Traversals *)

Lemma map_fields_keys {A B} (f : string → A → B) cs :
  (map_fields f cs).*1 = cs.*1.
Proof. induction cs as [|[k c] cs IH]; csimpl; by rewrite ?IH. Qed.

Lemma map_fields_elem {A B} (f : string → A → B) cs k x :
  (k, x) ∈ map_fields f cs → ∃ c, (k, c) ∈ cs ∧ x = f k c.
Proof.
  induction cs as [|[k0 c0] cs IH]; simpl.
  - intros Hin. by apply elem_of_nil in Hin.
  - rewrite elem_of_cons. intros [[= -> ->]|Hin].
    + exists c0. split; [apply elem_of_cons; by left|done].
    + destruct (IH Hin) as (c & Hc & ->). exists c.
      split; [apply elem_of_cons; by right|done].
Qed.

Lemma map_indexed_elem {A B} (f : nat → A → B) cs i x :
  x ∈ map_indexed f i cs → ∃ j c, c ∈ cs ∧ x = f j c.
Proof.
  revert i. induction cs as [|c0 cs IH]; intros i; simpl.
  - intros Hin. by apply elem_of_nil in Hin.
  - rewrite elem_of_cons. intros [->|Hin].
    + exists i, c0. split; [apply elem_of_cons; by left|done].
    + destruct (IH _ Hin) as (j & c & Hc & ->). exists j, c.
      split; [apply elem_of_cons; by right|done].
Qed.

Lemma map_indexed_const {A B} (f : A → B) cs i :
  map_indexed (λ _, f) i cs = f <$> cs.
Proof. revert i. induction cs as [|c cs IH]; intros i; csimpl; by rewrite ?IH. Qed.

Lemma traverse_fields_keys {A} (f : string → A → option A) cs cs' :
  traverse_fields f cs = Some cs' → cs'.*1 = cs.*1.
Proof.
  revert cs'. induction cs as [|[k c] cs IH]; intros cs'; simpl.
  - by intros [= <-].
  - destruct (f k c); [|done].
    destruct (traverse_fields f cs) eqn:Hrest; [|done].
    intros [= <-]. csimpl. by rewrite (IH l).
Qed.

Lemma traverse_fields_elem {A} (f : string → A → option A) cs cs' k x :
  traverse_fields f cs = Some cs' → (k, x) ∈ cs' →
  ∃ c, (k, c) ∈ cs ∧ f k c = Some x.
Proof.
  revert cs'. induction cs as [|[k0 c0] cs IH]; intros cs'; simpl.
  - intros [= <-] Hin. by apply elem_of_nil in Hin.
  - destruct (f k0 c0) as [c0'|] eqn:Hf; [|done].
    destruct (traverse_fields f cs) as [rest|] eqn:Hrest; [|done].
    intros [= <-]. rewrite elem_of_cons. intros [[= -> ->]|Hin].
    + exists c0. split; [apply elem_of_cons; by left|done].
    + destruct (IH rest eq_refl Hin) as (c & Hc & Hfc). exists c.
      split; [apply elem_of_cons; by right|done].
Qed.

Lemma traverse_indexed_elem {A} (f : nat → A → option A) cs cs' i x :
  traverse_indexed f i cs = Some cs' → x ∈ cs' →
  ∃ j c, c ∈ cs ∧ f j c = Some x.
Proof.
  revert i cs'. induction cs as [|c0 cs IH]; intros i cs'; simpl.
  - intros [= <-] Hin. by apply elem_of_nil in Hin.
  - destruct (f i c0) as [c0'|] eqn:Hf; [|done].
    destruct (traverse_indexed f (S i) cs) as [rest|] eqn:Hrest; [|done].
    intros [= <-]. rewrite elem_of_cons. intros [->|Hin].
    + exists i, c0. split; [apply elem_of_cons; by left|done].
    + destruct (IH _ rest Hrest Hin) as (j & c & Hc & Hfc). exists j, c.
      split; [apply elem_of_cons; by right|done].
Qed.

(** *** Every operation keeps the tree consistent *)

Lemma consistent_group_inv cs m d o :
  consistent (Group cs m d o) →
  m = group_value cs ∧ NoDup cs.*1 ∧ ∀ k c, (k, c) ∈ cs → consistent c.
Proof. inversion 1; by subst. Qed.

Lemma consistent_list_inv cs vs d o :
  consistent (List cs vs d o) →
  vs = list_value cs ∧ ∀ c, c ∈ cs → consistent c.
Proof. inversion 1; by subst. Qed.

Lemma map_fields_consistent (f : string → Control → Control) cs d o :
  NoDup cs.*1 → (∀ k c, (k, c) ∈ cs → consistent (f k c)) →
  consistent (mk_group (map_fields f cs) d o).
Proof.
  intros Hnd Hf. constructor; [by rewrite map_fields_keys|].
  intros k x Hin. apply map_fields_elem in Hin as (c & Hc & ->). by apply Hf.
Qed.

Lemma map_indexed_consistent (f : nat → Control → Control) cs i d o :
  (∀ j c, c ∈ cs → consistent (f j c)) →
  consistent (mk_list (map_indexed f i cs) d o).
Proof.
  intros Hf. constructor.
  intros x Hin. apply map_indexed_elem in Hin as (j & c & Hc & ->). by apply Hf.
Qed.

Lemma traverse_fields_consistent f cs cs' d o :
  NoDup cs.*1 → traverse_fields f cs = Some cs' →
  (∀ k c x, (k, c) ∈ cs → f k c = Some x → consistent x) →
  consistent (mk_group cs' d o).
Proof.
  intros Hnd Hrun Hf. constructor.
  - by rewrite (traverse_fields_keys f cs cs').
  - intros k x Hin.
    destruct (traverse_fields_elem f cs cs' k x Hrun Hin) as (c & Hc & Hfc).
    by eapply Hf.
Qed.

Lemma traverse_indexed_consistent f cs cs' i d o :
  traverse_indexed f i cs = Some cs' →
  (∀ j c x, c ∈ cs → f j c = Some x → consistent x) →
  consistent (mk_list cs' d o).
Proof.
  intros Hrun Hf. constructor. intros x Hin.
  destruct (traverse_indexed_elem f cs cs' i x Hrun Hin) as (j & c & Hc & Hfc).
  by eapply Hf.
Qed.

Lemma recompute_consistent c : consistent c → recompute c = c.
Proof. by inversion 1. Qed.

Lemma disable_all_consistent c : consistent c → consistent (disable_all c).
Proof.
  induction c as [v i d o|cs m d o IH|cs vs d o IH] using Control_rect';
    intros Hc; simpl.
  - constructor.
  - apply consistent_group_inv in Hc as (_ & Hnd & Hcs).
    apply map_fields_consistent; [done|]. intros k c Hin. by eapply IH, Hcs.
  - apply consistent_list_inv in Hc as (_ & Hcs).
    apply map_indexed_consistent. intros _ c Hin. by apply IH, Hcs.
Qed.

Lemma restore_consistent c : consistent c → consistent (restore c).
Proof.
  induction c as [v i d o|cs m d o IH|cs vs d o IH] using Control_rect';
    intros Hc; simpl.
  - constructor.
  - destruct o; [done|].
    apply consistent_group_inv in Hc as (_ & Hnd & Hcs).
    apply map_fields_consistent; [done|]. intros k c Hin. by eapply IH, Hcs.
  - destruct o; [done|].
    apply consistent_list_inv in Hc as (_ & Hcs).
    apply map_indexed_consistent. intros _ c Hin. by apply IH, Hcs.
Qed.

Lemma disable_consistent c : consistent c → consistent (disable c).
Proof.
  destruct c as [v i d o|cs m d o|cs vs d o]; intros Hc; simpl.
  - constructor.
  - apply consistent_group_inv in Hc as (_ & Hnd & Hcs).
    apply map_fields_consistent; [done|]. intros k c Hin.
    by eapply disable_all_consistent, Hcs.
  - apply consistent_list_inv in Hc as (_ & Hcs).
    apply map_indexed_consistent. intros _ c Hin.
    by apply disable_all_consistent, Hcs.
Qed.

Lemma enable_consistent c : consistent c → consistent (enable c).
Proof.
  destruct c as [v i d o|cs m d o|cs vs d o]; intros Hc; simpl.
  - constructor.
  - apply consistent_group_inv in Hc as (_ & Hnd & Hcs).
    apply map_fields_consistent; [done|]. intros k c Hin.
    by eapply restore_consistent, Hcs.
  - apply consistent_list_inv in Hc as (_ & Hcs).
    apply map_indexed_consistent. intros _ c Hin.
    by apply restore_consistent, Hcs.
Qed.

Lemma setValue_consistent c :
  consistent c → ∀ v c', setValue c v = Some c' → consistent c'.
Proof.
  induction c as [x i d o|cs m d o IH|cs vs d o IH] using Control_rect';
    intros Hc v c'; simpl.
  - intros [= <-]. constructor.
  - apply consistent_group_inv in Hc as (_ & Hnd & Hcs).
    destruct v as [| | | | | | |props|]; try done.
    destruct (group_shape_ok cs props); [|done].
    destruct (traverse_fields _ cs) as [cs'|] eqn:Hrun; [|done].
    intros [= <-]. eapply traverse_fields_consistent; [done..|].
    intros k c x Hin. cbv beta. destruct (enabled c).
    + by eapply IH, Hcs.
    + intros [= <-]. by eapply Hcs.
  - apply consistent_list_inv in Hc as (_ & Hcs).
    destruct v as [| | | | | |xs| |]; try done.
    destruct (list_shape_ok cs xs); [|done].
    destruct (traverse_indexed _ 0 cs) as [cs'|] eqn:Hrun; [|done].
    intros [= <-]. eapply traverse_indexed_consistent; [done|].
    intros j c x Hin. cbv beta. destruct (enabled c).
    + by apply IH, Hcs.
    + intros [= <-]. by apply Hcs.
Qed.

Lemma patchValue_consistent c : consistent c → ∀ v, consistent (patchValue c v).
Proof.
  induction c as [x i d o|cs m d o IH|cs vs d o IH] using Control_rect';
    intros Hc v; simpl.
  - constructor.
  - destruct v as [| | | | | | |props|]; try done.
    apply consistent_group_inv in Hc as (_ & Hnd & Hcs).
    apply map_fields_consistent; [done|]. intros k c Hin.
    destruct (obj_lookup props k); [by eapply IH, Hcs|by eapply Hcs].
  - destruct v as [| | | | | |xs| |]; try done.
    apply consistent_list_inv in Hc as (_ & Hcs).
    apply map_indexed_consistent. intros j c Hin.
    destruct (xs !! j); [by apply IH, Hcs|by apply Hcs].
Qed.

Lemma reset_consistent c : consistent c → ∀ v, consistent (reset c v).
Proof.
  induction c as [x i d o|cs m d o IH|cs vs d o IH] using Control_rect';
    intros Hc v; simpl.
  - constructor.
  - apply consistent_group_inv in Hc as (_ & Hnd & Hcs).
    apply map_fields_consistent; [done|]. intros k c Hin. by eapply IH, Hcs.
  - apply consistent_list_inv in Hc as (_ & Hcs).
    apply map_indexed_consistent. intros j c Hin. by apply IH, Hcs.
Qed.

Lemma on_node_consistent op c c' :
  consistent c → on_node op c = Some c' → consistent c'.
Proof.
  intros Hc. destruct op; simpl.
  - by apply setValue_consistent.
  - intros [= <-]. by apply patchValue_consistent.
  - intros [= <-]. by apply reset_consistent.
  - intros [= <-]. by apply disable_consistent.
  - intros [= <-]. by apply enable_consistent.
  - intros [= <-]. by rewrite recompute_consistent.
Qed.

(** *** Propagation to the root *)

Lemma consistent_child c s c' :
  consistent c → child c s = Some c' → consistent c'.
Proof.
  destruct c as [v i d o|cs m d o|cs vs d o], s as [k|j]; simpl; try done.
  - intros Hc Hk. apply consistent_group_inv in Hc as (_ & _ & Hcs).
    by eapply Hcs, obj_lookup_elem.
  - intros Hc Hj. apply consistent_list_inv in Hc as (_ & Hcs).
    by eapply Hcs, list_elem_of_lookup_2.
Qed.

Lemma consistent_get c p c' : consistent c → get c p = Some c' → consistent c'.
Proof.
  revert c. induction p as [|s p IH]; intros c Hc; simpl.
  - by intros [= <-].
  - destruct (child c s) as [c1|] eqn:Hs; [|done]. simpl.
    by eapply IH, consistent_child.
Qed.

Lemma set_child_same c s c' : child c s = Some c' → set_child c s c' = c.
Proof.
  destruct c as [v i d o|cs m d o|cs vs d o], s as [k|j]; simpl; try done.
  - intros Hk. by rewrite set_field_same.
  - intros Hj. by rewrite list_insert_id.
Qed.

Lemma child_set_child c s c' x :
  child c s = Some c' → child (recompute (set_child c s x)) s = Some x.
Proof.
  destruct c as [v i d o|cs m d o|cs vs d o], s as [k|j]; simpl; try done.
  - intros Hk. by eapply obj_lookup_set_field.
  - intros Hj. apply list_lookup_insert_eq. by eapply lookup_lt_Some.
Qed.

(** A consistent child put in the place of a child, and the parent
    recomputed. *)
Lemma recompute_set_child_consistent c s c' x :
  consistent c → child c s = Some c' → consistent x →
  consistent (recompute (set_child c s x)).
Proof.
  destruct c as [v i d o|cs m d o|cs vs d o], s as [k|j]; simpl; try done.
  - intros Hc Hk Hx. apply consistent_group_inv in Hc as (_ & Hnd & Hcs).
    constructor; [by rewrite set_field_keys|].
    intros k' c0 Hin. apply set_field_elem in Hin as [Hin| ->]; [|done].
    by eapply Hcs.
  - intros Hc Hj Hx. apply consistent_list_inv in Hc as (_ & Hcs).
    constructor. intros c0 Hin.
    apply list_elem_of_lookup in Hin as [n Hn].
    destruct (decide (j = n)) as [->|Hne].
    + rewrite list_lookup_insert_eq in Hn by by eapply lookup_lt_Some.
      by injection Hn as <-.
    + rewrite list_lookup_insert_ne in Hn by done.
      by eapply Hcs, list_elem_of_lookup_2.
Qed.

Lemma update_at_consistent f p :
  (∀ n n', consistent n → f n = Some n' → consistent n') →
  ∀ c c', consistent c → update_at true f p c = Some c' → consistent c'.
Proof.
  intros Hf. induction p as [|s p IH]; intros c c' Hc; simpl.
  - by apply Hf.
  - destruct (child c s) as [c1|] eqn:Hs; [|done]. simpl.
    destruct (update_at true f p c1) as [c2|] eqn:Hrun; [|done].
    intros [= <-]. eapply recompute_set_child_consistent; [done..|].
    by eapply IH, Hrun; eapply consistent_child.
Qed.

(** The self-only recomputation of a consistent tree changes nothing. *)
Lemma update_at_self_only p c c' :
  consistent c → update_at false (λ n, Some (recompute n)) p c = Some c' →
  c' = c.
Proof.
  revert c c'. induction p as [|s p IH]; intros c c' Hc; simpl.
  - intros [= <-]. by apply recompute_consistent.
  - destruct (child c s) as [c1|] eqn:Hs; [|done]. simpl.
    destruct (update_at false _ p c1) as [c2|] eqn:Hrun; [|done].
    intros [= <-]. apply IH in Hrun as ->; [|by eapply consistent_child].
    by apply set_child_same.
Qed.

Lemma perform_consistent op p c c' :
  consistent c → perform op p c = Some c' → consistent c'.
Proof.
  intros Hc. unfold perform.
  destruct (propagates op) eqn:Hprop.
  - apply update_at_consistent; [|done]. intros n n'. apply on_node_consistent.
  - destruct op; try done. simpl.
    intros Hrun. by apply update_at_self_only in Hrun as ->.
Qed.

Lemma reachable_consistent c : reachable c → consistent c.
Proof.
  induction 1 as [v d|cs Hnd _ IH|cs _ IH|op p c c' _ IH Hrun].
  - constructor.
  - by constructor.
  - by constructor.
  - by eapply perform_consistent.
Qed.

(** *** The value of a group *)

Lemma group_value_absent cs k : k ∉ cs.*1 → obj_lookup (group_value cs) k = None.
Proof.
  intros Hk. apply obj_lookup_None. intros Hin. apply Hk.
  apply list_elem_of_fmap in Hin as ([k' v] & -> & Hin).
  apply list_elem_of_omap in Hin as ([k0 c] & Hin & Heq). simpl in Heq.
  destruct (enabled c); [|done]. injection Heq as -> _.
  apply list_elem_of_fmap. by exists (k', c).
Qed.

(** Under distinct names, a name is in the value of a group with the value
    of its child exactly when that child is enabled. *)
Lemma group_value_lookup cs k :
  NoDup cs.*1 →
  obj_lookup (group_value cs) k
  = c ← obj_lookup cs k; if enabled c then Some (value c) else None.
Proof.
  induction cs as [|[k0 c0] cs IH]; [done|]. csimpl.
  intros [Hk0 Hnd]%NoDup_cons. unfold group_value in *. csimpl.
  destruct (String.eqb_spec k0 k) as [->|Hne]; csimpl.
  - destruct (enabled c0); simpl; [by rewrite String.eqb_refl|].
    by apply group_value_absent.
  - destruct (enabled c0); simpl; [|by apply IH].
    destruct (String.eqb_spec k0 k); [done|by apply IH].
Qed.

(** C1: in every reachable state, the value of every group [G] of the tree
    is the mapping of [{k: G.controls[k].value}] restricted to the enabled
    children: a name is in the value exactly when its child is enabled, with
    the child's value, and the name of a disabled child is absent from it. *)
Theorem group_value_is_enabled_children root p cs m d o :
  reachable root →
  get root p = Some (Group cs m d o) →
  m = group_value cs
  ∧ (∀ k, obj_lookup m k
          = c ← obj_lookup cs k; if enabled c then Some (value c) else None)
  ∧ (∀ k c, obj_lookup cs k = Some c → disabled c = true → k ∉ m.*1).
Proof.
  intros Hreach Hget.
  apply reachable_consistent in Hreach.
  apply (consistent_get _ _ _ Hreach), consistent_group_inv in Hget
    as (-> & Hnd & _).
  split; [done|]. split; [intros k; by apply group_value_lookup|].
  intros k c Hk Hd. apply obj_lookup_None.
  rewrite group_value_lookup, Hk by done. simpl. unfold enabled. by rewrite Hd.
Qed.

(** Case analysis on the children of a literal list of controls. *)
Ltac each_child Hin :=
  repeat (let Heq := fresh "Heq" in
          apply elem_of_cons in Hin as [Heq|Hin];
          [injection Heq as _ ->|]);
  try (by apply elem_of_nil in Hin).

Lemma scenario_group_reachable : reachable scenario_group.
Proof.
  apply reachable_group; [compute_done|].
  intros k c Hin. each_child Hin; apply reachable_leaf.
Defined.

Lemma scenario_group_b_disabled_reachable : reachable scenario_group_b_disabled.
Proof.
  apply (reachable_step Disable [Key "b"] scenario_group);
    [apply scenario_group_reachable|reflexivity].
Defined.

Lemma group_value_is_enabled_children_witness :
  [("a", JStr "x")]
  = group_value [("a", Leaf (JStr "x") (JStr "x") false false);
                 ("b", Leaf (JNum 0) (JNum 0) true true)]
  ∧ "b" ∉ [("a", JStr "x")].*1.
Proof.
  destruct (group_value_is_enabled_children scenario_group_b_disabled [] _ _ _ _
              scenario_group_b_disabled_reachable eq_refl) as (Hv & _ & Habs).
  split; [exact Hv|].
  apply (Habs "b" (Leaf (JNum 0) (JNum 0) true true)); reflexivity.
Defined.

(** *** The value of a control as a partial view *)

Lemma value_shape_group cs m d o :
  value_shape (Group cs m d o) = Partial (map_fields (λ _, value_shape) cs).
Proof.
  unfold value_shape. simpl. f_equal.
  induction cs as [|[k c] cs IH]; simpl; by rewrite ?IH.
Qed.

Lemma value_shape_list cs vs d o :
  value_shape (List cs vs d o) = ArrayOf (value_shape <$> cs).
Proof.
  unfold value_shape. simpl.
  by rewrite !map_indexed_const, <-list_fmap_compose.
Qed.

Lemma group_value_has_some_fields cs :
  (∀ k c, (k, c) ∈ cs → has_shape (value c) (value_shape c)) →
  has_some_fields (group_value cs) (map_fields (λ _, value_shape) cs).
Proof.
  induction cs as [|[k c] cs IH]; intros Hcs; [constructor|].
  assert (has_some_fields (group_value cs) (map_fields (λ _, value_shape) cs))
    as Hrest.
  { apply IH. intros k' c' Hin. apply (Hcs k' c'), elem_of_cons. by right. }
  unfold group_value in *. csimpl. destruct (enabled c); simpl.
  - apply some_fields_keep; [|done]. apply (Hcs k c), elem_of_cons. by left.
  - by apply some_fields_skip.
Qed.

(** The value a consistent control holds has the partial shape, through all
    levels of nesting. *)
Lemma value_has_value_shape c : consistent c → has_shape (value c) (value_shape c).
Proof.
  induction c as [v i d o|cs m d o IH|cs vs d o IH] using Control_rect';
    intros Hc.
  - constructor.
  - apply consistent_group_inv in Hc as (-> & _ & Hcs).
    rewrite value_shape_group. simpl. apply has_partial.
    apply group_value_has_some_fields. intros k c Hin. by eapply IH, Hcs.
  - apply consistent_list_inv in Hc as (-> & Hcs).
    rewrite value_shape_list. simpl. apply has_array, Forall_forall.
    intros v Hv. apply list_elem_of_omap in Hv as (c & Hin & Hv).
    destruct (enabled c); [|done]. injection Hv as <-.
    apply Exists_exists. exists (value_shape c).
    split; [by apply list_elem_of_fmap_2|by apply IH, Hcs].
Qed.

Lemma has_fields_keys m fs : has_fields m fs → m.*1 = fs.*1.
Proof. induction 1 as [|k v s m fs _ _ IH]; csimpl; by rewrite ?IH. Qed.

(** An operation on the child [k] of the group at [p]. *)
Lemma update_at_child f p k : ∀ c cs m d o x x',
  get c p = Some (Group cs m d o) → obj_lookup cs k = Some x → f x = Some x' →
  ∃ c', update_at true f (p ++ [Key k]) c = Some c'
    ∧ get c' p = Some (mk_group (set_field cs k x') d o).
Proof.
  induction p as [|s p IH]; intros c cs m d o x x'; simpl.
  - intros [= ->] Hk Hf. simpl. rewrite Hk. simpl. rewrite Hf. simpl. by eauto.
  - destruct (child c s) as [c1|] eqn:Hs; [|done]. simpl.
    intros Hget Hk Hf.
    destruct (IH c1 cs m d o x x' Hget Hk Hf) as (c1' & Hrun & Hget').
    rewrite Hrun. simpl. eexists. split; [done|].
    by erewrite child_set_child.
Qed.

Lemma disabled_disable c : disabled (disable c) = true.
Proof. by destruct c. Qed.

(** C2: the value of every group of a reachable tree, at any depth, is a
    partial view over the declared shape: it has the shape [Partial] of the
    children's value shapes, which are partial in turn; and every declared
    key may be absent: disabling the child under a key gives a reachable
    tree in which the group keeps its keys while its value lacks that key,
    and so does not have the declared shape itself. *)
Theorem group_value_is_partial_view root p cs m d o :
  reachable root →
  get root p = Some (Group cs m d o) →
  value_shape (Group cs m d o) = Partial (map_fields (λ _, value_shape) cs)
  ∧ has_shape (JObj m) (value_shape (Group cs m d o))
  ∧ ∀ k, k ∈ cs.*1 →
      ∃ root' cs' m',
        perform Disable (p ++ [Key k]) root = Some root'
        ∧ reachable root'
        ∧ get root' p = Some (Group cs' m' d o)
        ∧ cs'.*1 = cs.*1
        ∧ (k ∉ m'.*1)
        ∧ has_shape (JObj m') (value_shape (Group cs' m' d o))
        ∧ ¬ has_shape (JObj m') (declared_shape (Group cs' m' d o)).
Proof.
  intros Hreach Hget.
  pose proof (reachable_consistent _ Hreach) as Hroot.
  pose proof (consistent_get _ _ _ Hroot Hget) as HG.
  split; [apply value_shape_group|].
  split; [apply (value_has_value_shape _ HG)|].
  intros k Hk. destruct (obj_lookup_is_Some cs k Hk) as [x Hx].
  destruct (update_at_child (λ n, Some (disable n)) p k root cs m d o x
              (disable x) Hget Hx eq_refl) as (root' & Hrun & Hget').
  assert (reachable root') as Hreach'
    by (apply (reachable_step Disable (p ++ [Key k]) root); [done|exact Hrun]).
  pose proof (reachable_consistent _ Hreach') as Hroot'.
  pose proof (consistent_get _ _ _ Hroot' Hget') as HG'.
  apply consistent_group_inv in HG as (_ & Hnd & _).
  assert (k ∉ (group_value (set_field cs k (disable x))).*1) as Habs.
  { apply obj_lookup_None. rewrite group_value_lookup
      by by rewrite set_field_keys.
    rewrite (obj_lookup_set_field cs k (disable x) x Hx). simpl.
    unfold enabled. by rewrite disabled_disable. }
  exists root', (set_field cs k (disable x)),
    (group_value (set_field cs k (disable x))).
  split; [exact Hrun|]. split; [done|]. split; [exact Hget'|].
  split; [apply set_field_keys|]. split; [done|]. split.
  - apply (value_has_value_shape _ HG').
  - simpl. inversion 1 as [|? ? Hfields| |]; subst.
    apply has_fields_keys in Hfields.
    rewrite map_fields_keys, set_field_keys in Hfields.
    apply Habs. by rewrite Hfields.
Qed.

Example inferred_group_value_shape :
  value_shape inferred_group = Partial [("c", Opaque)]
  ∧ declared_shape inferred_group = Record [("c", Opaque)].
Proof. split; reflexivity. Qed.

Example nested_group_value_shape :
  value_shape nested_group = Partial [("outer", Partial [("inner", Opaque)])]
  ∧ declared_shape nested_group
    = Record [("outer", Record [("inner", Opaque)])].
Proof. split; reflexivity. Qed.

(** Scenario 7 of the spec's testable properties. *)
Example scenario_group_values :
  value scenario_group = JObj [("a", JStr "x"); ("b", JNum 0)]
  ∧ value <$> perform Disable [Key "b"] scenario_group
    = Some (JObj [("a", JStr "x")]).
Proof. split; reflexivity. Qed.

Lemma nested_group_reachable : reachable nested_group.
Proof.
  apply reachable_group; [compute_done|].
  intros k c Hin. each_child Hin.
  apply reachable_group; [compute_done|].
  intros k' c' Hin'. each_child Hin'. apply reachable_leaf.
Defined.

Lemma group_value_is_partial_view_witness :
  has_shape (JObj [("inner", JStr "")]) (Partial [("inner", Opaque)])
  ∧ ∃ root' cs' m',
      perform Disable [Key "outer"; Key "inner"] nested_group = Some root'
      ∧ get root' [Key "outer"] = Some (Group cs' m' false false)
      ∧ "inner" ∉ m'.*1.
Proof.
  destruct (group_value_is_partial_view nested_group [Key "outer"] _ _ _ _
              nested_group_reachable eq_refl) as (_ & Hhas & Hkeys).
  split; [exact Hhas|].
  destruct (Hkeys "inner") as (root' & cs' & m' & Hrun & _ & Hget & _ & Habs & _).
  - apply list_elem_of_singleton. reflexivity.
  - exists root', cs', m'. split; [exact Hrun|]. split; [exact Hget|exact Habs].
Defined.

End ModelFacts.

(** ** Further facts about the builder *)
Module BuilderMore.
Import JS Builder BuilderSpec JSFacts BuilderFacts.

(** Allocation keeps the built-in controls built-in. *)
Lemma builtin_mono h fresh r :
  builtin h r = true → builtin (h ++ fresh) r = true.
Proof.
  unfold builtin, is_instance, deref. destruct r; try done.
  destruct (h !! l) as [o|] eqn:Hl; [|done].
  by rewrite (lookup_app_l_Some _ _ _ _ Hl).
Qed.

Lemma fresh_leaf_builtin h cfg :
  builtin (h ++ [leaf_for cfg]) (JRef (length h)) = true.
Proof.
  unfold builtin, is_instance, deref.
  rewrite lookup_app_r, Nat.sub_diag by done. by destruct cfg.
Qed.

(** What [_createControl] returns is a built-in control of the heap it
    leaves, which extends the heap it found. *)
Lemma createControl_builtin cfg h :
  ∃ r fresh, _createControl cfg h = Returns r (h ++ fresh)
    ∧ builtin (h ++ fresh) r = true.
Proof.
  rewrite createControl_eq. destruct (builtin h cfg) eqn:Hb.
  - exists cfg, []. by rewrite app_nil_r.
  - exists (JRef (length h)), [leaf_for cfg].
    split; [done|apply fresh_leaf_builtin].
Qed.

(** X1: [_createControl] is idempotent: given its own result, in the heap it
    left, it returns that result and leaves the heap as it is. *)
Theorem createControl_idempotent cfg h r h' :
  _createControl cfg h = Returns r h' →
  _createControl r h' = Returns r h'.
Proof.
  destruct (createControl_builtin cfg h) as (r0 & fresh & -> & Hb).
  intros [= <- <-]. by rewrite createControl_eq, Hb.
Qed.

Lemma createControl_idempotent_witness :
  _createControl (JRef 1) (sample_heap ++ [leaf (JStr "y") undefined undefined])
  = Returns (JRef 1) (sample_heap ++ [leaf (JStr "y") undefined undefined]).
Proof.
  apply (createControl_idempotent (JStr "y") sample_heap). reflexivity.
Defined.

(** X2: [_createControl] reads a tuple up to index 2 only: two tuples with
    the same first three elements give the same control, whatever follows;
    and a tuple that stops short is the tuple with [null] in the missing
    validator places. *)
Theorem createControl_tuple_bounds elems elems' v f h :
  take 3 elems = take 3 elems' →
  _createControl (JArr elems) h = _createControl (JArr elems') h
  ∧ _createControl (JArr [v; f]) h = _createControl (JArr [v; f; null]) h
  ∧ _createControl (JArr [v]) h = _createControl (JArr [v; null; null]) h.
Proof.
  intros Htake. split; [|by rewrite !createControl_eq].
  assert (∀ i, i < 3 → elems !! i = elems' !! i) as Hsame.
  { intros i Hi.
    by rewrite <-(lookup_take_lt elems 3 i), Htake, lookup_take_lt. }
  rewrite !createControl_eq. change (builtin h (JArr _)) with false.
  unfold leaf_for, index.
  rewrite !(nth_lookup _ 0), (Hsame 0), (Hsame 1), (Hsame 2) by lia. done.
Qed.

Lemma createControl_tuple_bounds_witness :
  _createControl (JArr [JStr "x"; JFn "f"; JFn "g"; JNum 4; JNum 5]) []
  = _createControl (JArr [JStr "x"; JFn "f"; JFn "g"]) [].
Proof.
  apply (createControl_tuple_bounds
           [JStr "x"; JFn "f"; JFn "g"; JNum 4; JNum 5]
           [JStr "x"; JFn "f"; JFn "g"] null null []).
  reflexivity.
Defined.

(** The loop of [_reduceControls] keeps everything that can be read from
    [controls] a built-in control of the current heap. *)
Lemma reduceControls_loop_builtin cfg names :
  ∀ controls h,
    (∀ k r, read controls k = Some r → builtin h r = true) →
    ∃ controls' fresh,
      _reduceControls_loop cfg names controls h = Returns controls' (h ++ fresh)
      ∧ ∀ k r, read controls' k = Some r → builtin (h ++ fresh) r = true.
Proof.
  induction names as [|name names IH]; intros controls h Hall; simpl.
  - exists controls, []. by rewrite app_nil_r.
  - destruct (createControl_builtin (obj_get cfg name) h)
      as (r & fresh & Hrun & Hr).
    destruct (IH (assign controls name r) (h ++ fresh))
      as (controls' & fresh' & Hloop & Hall').
    + intros k x. destruct (decide (name = k)) as [->|Hne].
      * rewrite read_assign_eq; [by intros [= <-]|].
        by apply builtin_is_ref in Hr as (l & -> & _).
      * rewrite read_assign_ne by done. intros Hx.
        by eapply builtin_mono, Hall.
    + exists controls', (fresh ++ fresh').
      rewrite bind_eq, Hrun, Hloop, app_assoc. done.
Qed.

Lemma read_own (o : Obj) k : k ∈ (props o).*1 → is_Some (read o k).
Proof.
  intros Hk. unfold read.
  destruct (own_property (props o) k) eqn:Hown; [by eauto|].
  by apply own_property_None in Hown.
Qed.

Lemma read_proto (o : Obj) r :
  proto o = Some r → is_object r = true → "__proto__" ∉ (props o).*1 →
  read o "__proto__" = Some r.
Proof.
  intros Hp Hr Hown%own_property_None. unfold read.
  rewrite Hown, Hp. by destruct r.
Qed.

(** X3: whatever the configuration and the options, every control that
    [group] registers in the [FormGroup] is an instance of a built-in
    control class that is on the heap before the group itself is
    constructed; in particular the group is not among its own controls.  The
    same holds of whatever can be read from the controls under
    [__proto__]. *)
Theorem group_registers_only_controls cfg options h :
  ∃ controls opts h',
    group cfg options h
    = Returns (JRef (length h')) (h' ++ [form_group controls opts])
    ∧ (∀ k, k ∈ (props controls).*1 →
         ∃ r, read controls k = Some r
           ∧ builtin h' r = true ∧ r ≠ JRef (length h'))
    ∧ (∀ r, read controls "__proto__" = Some r →
         builtin h' r = true ∧ r ≠ JRef (length h')).
Proof.
  destruct (reduceControls_loop_builtin cfg (Object_keys cfg) empty_object h)
    as (controls & fresh & Hrun & Hall).
  { intros k r. unfold read. simpl. by destruct (String.eqb k "__proto__"). }
  destruct (group_returns cfg options h) as (controls' & opts & h' & Hrun' & Hg).
  unfold _reduceControls in Hrun'. rewrite Hrun in Hrun'. simplify_eq.
  exists controls', opts, (h ++ fresh). split; [done|].
  assert (∀ k r, read controls' k = Some r →
            builtin (h ++ fresh) r = true ∧ r ≠ JRef (length (h ++ fresh)))
    as Hread.
  { intros k r Hr. split; [by eapply Hall|]. intros ->.
    apply Hall in Hr. unfold builtin, is_instance, deref in Hr.
    by rewrite lookup_ge_None_2 in Hr. }
  split; [|by apply Hread].
  intros k Hk. destruct (read_own controls' k Hk) as [r Hr].
  exists r. split; [done|by eapply Hread].
Qed.

Lemma mapM_createControl_builtin cfgs :
  ∀ h, ∃ rs fresh,
    mapM _createControl cfgs h = Returns rs (h ++ fresh)
    ∧ Forall (λ r, builtin (h ++ fresh) r = true) rs.
Proof.
  induction cfgs as [|cfg cfgs IH]; intros h; simpl.
  - exists [], []. by rewrite app_nil_r.
  - destruct (createControl_builtin cfg h) as (r & fresh & Hrun & Hr).
    destruct (IH (h ++ fresh)) as (rs & fresh' & Hrest & Hall).
    exists (r :: rs), (fresh ++ fresh').
    rewrite bind_eq, Hrun, bind_eq, Hrest, app_assoc. split; [done|].
    constructor; [by apply builtin_mono|done].
Qed.

(** X4: every element of the controls that [array] hands to the [FormArray]
    is an instance of a built-in control class that is on the heap before
    the array itself is constructed, so the array is not among them. *)
Theorem array_holds_only_controls cfgs v a h :
  ∃ controls h',
    array cfgs v a h
    = Returns (JRef (length h')) (h' ++ [form_array controls v a])
    ∧ Forall (λ r, builtin h' r = true ∧ r ≠ JRef (length h')) controls.
Proof.
  destruct (mapM_createControl_builtin cfgs h) as (rs & fresh & Hrun & Hall).
  exists rs, (h ++ fresh). unfold array. rewrite bind_eq, Hrun.
  split; [done|]. eapply Forall_impl; [exact Hall|].
  intros r Hr. split; [done|]. intros ->.
  unfold builtin, is_instance, deref in Hr.
  by rewrite lookup_ge_None_2 in Hr.
Qed.

(** *** How many instances the factory constructs, and which *)

(** The run of the element-wise map from a heap [h ++ fresh], for a
    configuration whose references are to instances of [h]: the heap only
    grows; each shorthand gets a reference to a new instance; and the new
    instances are allocated in the order of the elements. *)
Lemma mapM_createControl_fresh h cfgs :
  Forall (closed h) cfgs →
  ∀ fresh rs h2,
    mapM _createControl cfgs (h ++ fresh) = Returns rs h2 →
    length h2
    = length (h ++ fresh) + length (filter (λ c, builtin h c = false) cfgs)
    ∧ (∀ i c, cfgs !! i = Some c → builtin h c = false →
         ∃ l, rs !! i = Some (JRef l) ∧ length (h ++ fresh) ≤ l < length h2)
    ∧ (∀ i j ci cj, i < j →
         cfgs !! i = Some ci → cfgs !! j = Some cj →
         builtin h ci = false → builtin h cj = false →
         ∃ li lj, rs !! i = Some (JRef li) ∧ rs !! j = Some (JRef lj)
           ∧ li < lj).
Proof.
  induction 1 as [|cfg cfgs Hcfg Hcfgs IH]; intros fresh rs h2; simpl.
  - intros [= <- <-]. rewrite Nat.add_0_r. split; [done|].
    split; [intros i c Hi|intros i j ci cj _ Hi]; by rewrite lookup_nil in Hi.
  - rewrite bind_eq, createControl_eq, builtin_app by done.
    destruct (builtin h cfg) eqn:Hb.
    + rewrite bind_eq.
      destruct (mapM _createControl cfgs (h ++ fresh)) as [rs' h2'|] eqn:Hrun;
        [|done].
      intros [= <- <-]. destruct (IH _ _ _ Hrun) as (Hlen & Hnew & Hord).
      rewrite filter_cons_False by by rewrite Hb.
      split; [done|]. split.
      * intros [|i] c Hi Hc; [|exact (Hnew i c Hi Hc)].
        change (Some cfg = Some c) in Hi. congruence.
      * intros [|i] [|j] ci cj Hij Hi Hj Hci Hcj; try lia.
        { change (Some cfg = Some ci) in Hi. congruence. }
        exact (Hord i j ci cj (proj2 (Nat.succ_lt_mono i j) Hij) Hi Hj Hci Hcj).
    + rewrite bind_eq, <-app_assoc.
      destruct (mapM _createControl cfgs (h ++ fresh ++ [leaf_for cfg]))
        as [rs' h2'|] eqn:Hrun; [|done].
      intros [= <- <-]. destruct (IH _ _ _ Hrun) as (Hlen & Hnew & Hord).
      rewrite filter_cons_True by done.
      rewrite !length_app in *. simpl in *. split; [lia|]. split.
      * intros [|i] c Hi Hc.
        -- exists (length h + length fresh). split; [done|lia].
        -- destruct (Hnew i c Hi Hc) as (l & Hl & Hbounds).
           exists l. split; [exact Hl|lia].
      * intros [|i] [|j] ci cj Hij Hi Hj Hci Hcj; try lia.
        -- destruct (Hnew j cj Hj Hcj) as (lj & Hlj & Hbounds).
           exists (length h + length fresh), lj.
           split; [done|]. split; [exact Hlj|lia].
        -- exact (Hord i j ci cj (proj2 (Nat.succ_lt_mono i j) Hij)
                    Hi Hj Hci Hcj).
Qed.

Lemma array_run h cfgs v a :
  ∃ controls h',
    mapM _createControl cfgs h = Returns controls h'
    ∧ array cfgs v a h
      = Returns (JRef (length h')) (h' ++ [form_array controls v a]).
Proof.
  destruct (mapM_createControl_returns cfgs h) as (rs & h' & Hrun).
  exists rs, h'. unfold array. by rewrite bind_eq, Hrun.
Qed.

(** X5: [array] constructs exactly one new [FormControl] for every element
    that is not a built-in control, none for one that is, and then the
    [FormArray]. *)
Theorem array_allocates_per_shorthand h cfgs v a :
  Forall (closed h) cfgs →
  ∃ controls h',
    array cfgs v a h
    = Returns (JRef (length h')) (h' ++ [form_array controls v a])
    ∧ length h'
      = length h + length (filter (λ c, builtin h c = false) cfgs).
Proof.
  intros Hcl. destruct (array_run h cfgs v a) as (rs & h' & Hrun & Harr).
  exists rs, h'. split; [done|].
  rewrite <-(app_nil_r h) in Hrun.
  destruct (mapM_createControl_fresh h cfgs Hcl [] rs h' Hrun) as (Hlen & _).
  by rewrite app_nil_r in Hlen.
Qed.

Lemma array_allocates_per_shorthand_witness :
  ∃ controls h',
    array [JRef 0; JNum 1; JRef 0; JArr []] undefined undefined sample_heap
    = Returns (JRef (length h'))
        (h' ++ [form_array controls undefined undefined])
    ∧ length h' = 1 + 2.
Proof.
  apply (array_allocates_per_shorthand sample_heap
           [JRef 0; JNum 1; JRef 0; JArr []] undefined undefined).
  repeat constructor.
Defined.

(** X6: the controls [array] builds for two elements that are not built-in
    controls are two different new instances, allocated in the order of the
    elements, also when the two elements are equal; neither is an instance
    that existed before. *)
Theorem array_fresh_controls_distinct h cfgs v a i j ci cj :
  Forall (closed h) cfgs →
  i < j → cfgs !! i = Some ci → cfgs !! j = Some cj →
  builtin h ci = false → builtin h cj = false →
  ∃ controls h' li lj,
    array cfgs v a h
    = Returns (JRef (length h')) (h' ++ [form_array controls v a])
    ∧ controls !! i = Some (JRef li) ∧ controls !! j = Some (JRef lj)
    ∧ length h ≤ li < lj.
Proof.
  intros Hcl Hij Hi Hj Hci Hcj.
  destruct (array_run h cfgs v a) as (rs & h' & Hrun & Harr).
  rewrite <-(app_nil_r h) in Hrun.
  destruct (mapM_createControl_fresh h cfgs Hcl [] rs h' Hrun)
    as (_ & Hnew & Hord).
  destruct (Hord i j ci cj Hij Hi Hj Hci Hcj) as (li & lj & Hli & Hlj & Hlt).
  destruct (Hnew i ci Hi Hci) as (l & Hl & Hbounds).
  rewrite app_nil_r in Hbounds. rewrite Hli in Hl. injection Hl as <-.
  exists rs, h', li, lj. repeat split; try done. lia.
Qed.

Lemma array_fresh_controls_distinct_witness :
  ∃ controls h' li lj,
    array [JStr "a"; JStr "a"] undefined undefined sample_heap
    = Returns (JRef (length h'))
        (h' ++ [form_array controls undefined undefined])
    ∧ controls !! 0 = Some (JRef li) ∧ controls !! 1 = Some (JRef lj)
    ∧ length sample_heap ≤ li < lj.
Proof.
  apply (array_fresh_controls_distinct sample_heap [JStr "a"; JStr "a"]
           undefined undefined 0 1 (JStr "a") (JStr "a"));
    try reflexivity; [repeat constructor|lia].
Defined.

(** The loop of [_reduceControls] allocates one leaf per name whose entry is
    not a built-in control. *)
Lemma reduceControls_loop_count cfg h names :
  (∀ k, closed h (obj_get cfg k)) →
  ∀ controls fresh, ∃ controls' fresh',
    _reduceControls_loop cfg names controls (h ++ fresh)
    = Returns controls' (h ++ fresh ++ fresh')
    ∧ length fresh'
      = length (filter (λ k, builtin h (obj_get cfg k) = false) names).
Proof.
  intros Hcl. induction names as [|name names IH]; intros controls fresh; simpl.
  - exists controls, []. by rewrite app_nil_r.
  - rewrite bind_eq, createControl_eq, builtin_app by done.
    destruct (builtin h (obj_get cfg name)) eqn:Hb.
    + rewrite filter_cons_False by by rewrite Hb. apply IH.
    + rewrite filter_cons_True by done. rewrite <-app_assoc.
      destruct (IH (assign controls name (JRef (length (h ++ fresh))))
                  (fresh ++ [leaf_for (obj_get cfg name)]))
        as (controls' & fresh' & Hrun & Hlen).
      exists controls', ([leaf_for (obj_get cfg name)] ++ fresh').
      rewrite Hrun, <-!app_assoc. split; [done|]. simpl. by rewrite Hlen.
Qed.

(** X7: [group] constructs exactly one new [FormControl] for every key of
    the configuration whose entry is not a built-in control, none for an
    entry that is, and then the [FormGroup]. *)
Theorem group_allocates_per_shorthand h cfg options :
  (∀ k, closed h (obj_get cfg k)) →
  ∃ controls opts h',
    group cfg options h
    = Returns (JRef (length h')) (h' ++ [form_group controls opts])
    ∧ length h'
      = length h
        + length (filter (λ k, builtin h (obj_get cfg k) = false)
                    (Object_keys cfg)).
Proof.
  intros Hcl.
  destruct (reduceControls_loop_count cfg h (Object_keys cfg) Hcl
              empty_object [])
    as (controls & fresh & Hrun & Hlen).
  destruct (group_returns cfg options h) as (controls' & opts & h' & Hrun' & Hg).
  unfold _reduceControls in Hrun'. rewrite app_nil_r in Hrun.
  rewrite Hrun in Hrun'. simplify_eq.
  exists controls', opts, (h ++ fresh). split; [done|].
  by rewrite length_app, Hlen.
Qed.

Lemma group_allocates_per_shorthand_witness :
  ∃ controls opts h',
    group sample_config None sample_heap
    = Returns (JRef (length h')) (h' ++ [form_group controls opts])
    ∧ length h' = 1 + 2.
Proof.
  apply (group_allocates_per_shorthand sample_heap sample_config None).
  apply sample_config_closed.
Defined.

(** *** The order of the registered controls *)

Lemma insert_sorted_perm x l : insert_sorted x l ≡ₚ x :: l.
Proof.
  induction l as [|y l IH]; simpl; [done|].
  destruct (x.1 <=? y.1)%N; [done|]. by rewrite IH, Permutation_swap.
Qed.

Lemma sort_indices_perm l : sort_indices l ≡ₚ l.
Proof.
  induction l as [|x l IH]; simpl; [done|].
  by rewrite insert_sorted_perm, IH.
Qed.

Lemma index_keys_names ks :
  (omap index_key ks).*2 = filter (λ k, array_index k ≠ None) ks.
Proof.
  induction ks as [|k ks IH]; [done|]. csimpl. unfold index_key at 1.
  destruct (array_index k) as [n|] eqn:Hk; csimpl.
  - rewrite filter_cons_True by by rewrite Hk. by rewrite IH.
  - rewrite filter_cons_False by (rewrite Hk; by intros []). done.
Qed.

(** [Object.keys] enumerates every property of an object once. *)
Lemma Object_keys_NoDup (o : JsObject) : NoDup o.*1 → NoDup (Object_keys o).
Proof.
  intros Hnd. unfold Object_keys. apply NoDup_app. split; [|split].
  - rewrite sort_indices_perm, index_keys_names. by apply NoDup_filter.
  - intros k Hk Hk'. rewrite sort_indices_perm, index_keys_names in Hk.
    apply list_elem_of_filter in Hk as [Hidx _].
    by apply list_elem_of_filter in Hk' as [Hname _].
  - by apply NoDup_filter.
Qed.

Lemma obj_set_new_key (o : JsObject) k v :
  k ∉ o.*1 →
  (obj_set o k v).*1 = o.*1 ++ filter (λ k, k ≠ "__proto__") [k].
Proof.
  induction o as [|[k0 v0] o IH]; csimpl.
  - intros _. destruct (String.eqb_spec k "__proto__") as [->|Hne].
    + by rewrite filter_cons_False by by intros [].
    + by rewrite filter_cons_True by done.
  - rewrite not_elem_of_cons. intros [Hne Hk].
    destruct (String.eqb_spec k0 k) as [->|_]; [done|]. csimpl. by rewrite IH.
Qed.

Lemma reduceControls_loop_order cfg names :
  NoDup names →
  ∀ controls h, (∀ k, k ∈ names → k ∉ (props controls).*1) →
  ∃ controls' h',
    _reduceControls_loop cfg names controls h = Returns controls' h'
    ∧ (props controls').*1
      = (props controls).*1 ++ filter (λ k, k ≠ "__proto__") names.
Proof.
  induction 1 as [|name names Hname Hnd IH]; intros controls h Hnew; simpl.
  - exists controls, h. by rewrite app_nil_r.
  - destruct (createControl_builtin (obj_get cfg name) h)
      as (r & fresh & Hrun & _).
    assert ((props (assign controls name r)).*1
            = (props controls).*1 ++ filter (λ k, k ≠ "__proto__") [name])
      as Hkeys.
    { apply obj_set_new_key, Hnew, elem_of_cons. by left. }
    destruct (IH (assign controls name r) (h ++ fresh))
      as (controls' & h' & Hloop & Hkeys').
    + intros k Hk. rewrite Hkeys, elem_of_app, list_elem_of_filter.
      rewrite list_elem_of_singleton. intros [Hin|[_ ->]]; [|done].
      by apply (Hnew k); [apply elem_of_cons; right|].
    + exists controls', h'. rewrite bind_eq, Hrun, Hloop.
      split; [done|]. rewrite Hkeys', Hkeys, <-app_assoc.
      by rewrite <-filter_app.
Qed.

(** X8: for a configuration with distinct keys, the own properties of the
    controls that [group] hands to the [FormGroup] are the keys of the
    configuration other than [__proto__], once each, in the order in which
    [Object.keys] enumerates the configuration. *)
Theorem group_registers_in_key_order cfg options h :
  NoDup cfg.*1 →
  ∃ controls opts h',
    group cfg options h
    = Returns (JRef (length h')) (h' ++ [form_group controls opts])
    ∧ (props controls).*1 = filter (λ k, k ≠ "__proto__") (Object_keys cfg).
Proof.
  intros Hnd.
  destruct (reduceControls_loop_order cfg (Object_keys cfg)
              (Object_keys_NoDup cfg Hnd) empty_object h)
    as (controls & h' & Hrun & Hkeys).
  { intros k _. apply not_elem_of_nil. }
  destruct (group_returns cfg options h) as (controls' & opts & h'' & Hrun' & Hg).
  unfold _reduceControls in Hrun'. rewrite Hrun in Hrun'. simplify_eq.
  by exists controls', opts, h''.
Qed.

Lemma group_registers_in_key_order_witness :
  ∃ controls opts h',
    group sample_config None sample_heap
    = Returns (JRef (length h')) (h' ++ [form_group controls opts])
    ∧ (props controls).*1 = ["1"; "b"; "c"].
Proof.
  apply (group_registers_in_key_order sample_config None sample_heap).
  compute_done.
Defined.

(** *** The options [group] hands on *)

Lemma group_run cfg h :
  ∃ controls h', _reduceControls cfg h = Returns controls h'.
Proof. apply reduceControls_loop_returns. Qed.

(** X9: whatever options [group] is given, the options it hands to the
    [FormGroup] are these: the validators and the async validators are the
    values under [validators] and [asyncValidators] when the options are in
    the modern form, under [validator] and [asyncValidator] when they are in
    the legacy form, and [null] when that value is [null] or [undefined] or
    there are no options; [updateOn] is the value under [updateOn] in the
    modern form unless that is [null] or [undefined], and [undefined]
    otherwise.  So the validators handed on are never [undefined] and
    [updateOn] is never [null]. *)
Theorem group_options_normalized cfg options h :
  ∃ controls validators asyncValidators updateOn h',
    group cfg options h
    = Returns (JRef (length h'))
        (h' ++ [form_group controls
                  (group_options validators asyncValidators updateOn)])
    ∧ handed_on options "validators" (Some "validator") null validators
    ∧ handed_on options "asyncValidators" (Some "asyncValidator") null
        asyncValidators
    ∧ handed_on options "updateOn" None undefined updateOn
    ∧ validators ≠ undefined ∧ asyncValidators ≠ undefined
    ∧ updateOn ≠ null.
Proof.
  destruct (group_run cfg h) as (controls & h' & Hrun).
  rewrite group_eq, bind_eq, Hrun.
  assert (∀ x, or_else x null ≠ undefined) as Hn by by intros [].
  assert (∀ x, or_else x undefined ≠ null) as Hu by by intros [].
  assert (∀ x d, (not_nullish x = true ∧ or_else x d = x)
                 ∨ (not_nullish x = false ∧ or_else x d = d)) as Hor.
  { intros x d. unfold or_else. destruct (not_nullish x); auto. }
  unfold handed_on.
  destruct options as [o|]; [destruct (isAbstractControlOptions o) eqn:Hm|];
    eexists controls, _, _, _, h'; (split; [reflexivity|]); simpl;
    rewrite ?Hm; repeat split; auto.
Qed.

(** X10: options in which [validators], [asyncValidators], [updateOn],
    [validator] and [asyncValidator] are all absent, [null] or [undefined]
    give the same [FormGroup] as no options at all, whatever other keys they
    hold. *)
Theorem group_nullish_options_as_none cfg o h :
  Forall (λ k, not_nullish (obj_get o k) = false)
    ["validators"; "asyncValidators"; "updateOn"; "validator";
     "asyncValidator"] →
  group cfg (Some o) h = group cfg None h.
Proof.
  rewrite !Forall_cons. intros (Hv & Ha & Hu & Hlv & Hla & _).
  rewrite !group_eq, !bind_eq. destruct (group_run cfg h) as (c & h' & ->).
  unfold or_else. rewrite Hv, Ha, Hu, Hlv, Hla.
  by destruct (isAbstractControlOptions o).
Qed.

Lemma group_nullish_options_as_none_witness :
  group sample_config (Some [("validators", null); ("name", JStr "form")])
    sample_heap
  = group sample_config None sample_heap.
Proof.
  apply (group_nullish_options_as_none sample_config
           [("validators", null); ("name", JStr "form")] sample_heap).
  repeat constructor.
Defined.

(** X11: [group] reads its options through the five keys [validators],
    [asyncValidators], [updateOn], [validator] and [asyncValidator] only:
    two options objects that agree on these give the same [FormGroup]. *)
Theorem group_reads_five_option_keys cfg o o' h :
  Forall (λ k, obj_get o k = obj_get o' k)
    ["validators"; "asyncValidators"; "updateOn"; "validator";
     "asyncValidator"] →
  group cfg (Some o) h = group cfg (Some o') h.
Proof.
  rewrite !Forall_cons. intros (Hv & Ha & Hu & Hlv & Hla & _).
  rewrite !group_eq. unfold isAbstractControlOptions.
  by rewrite Hv, Ha, Hu, Hlv, Hla.
Qed.

Lemma group_reads_five_option_keys_witness :
  group sample_config (Some [("validator", JFn "f"); ("name", JStr "form")])
    sample_heap
  = group sample_config (Some [("validator", JFn "f")]) sample_heap.
Proof.
  apply (group_reads_five_option_keys sample_config
           [("validator", JFn "f"); ("name", JStr "form")]
           [("validator", JFn "f")] sample_heap).
  repeat constructor.
Defined.

(** *** Normalization, child by child *)

(** The new controls of the loop of [_reduceControls] over distinct names:
    each name whose entry is not a built-in control reads as a reference to
    a new instance, and the instances come in the order of the names. *)
Lemma reduceControls_loop_fresh h cfg names :
  (∀ k, closed h (obj_get cfg k)) →
  NoDup names →
  ∀ controls fresh controls' h2,
    _reduceControls_loop cfg names controls (h ++ fresh)
    = Returns controls' h2 →
    length (h ++ fresh) ≤ length h2
    ∧ (∀ k, k ∉ names → read controls' k = read controls k)
    ∧ (∀ k, k ∈ names → builtin h (obj_get cfg k) = false →
         ∃ l, read controls' k = Some (JRef l)
           ∧ length (h ++ fresh) ≤ l < length h2)
    ∧ (∀ i j ki kj, i < j →
         names !! i = Some ki → names !! j = Some kj →
         builtin h (obj_get cfg ki) = false →
         builtin h (obj_get cfg kj) = false →
         ∃ li lj, read controls' ki = Some (JRef li)
           ∧ read controls' kj = Some (JRef lj) ∧ li < lj).
Proof.
  intros Hcl. induction 1 as [|name names Hname Hnd IH];
    intros controls fresh controls' h2; simpl.
  - intros [= <- <-]. split; [done|]. split; [done|].
    split; [intros k Hk; by apply elem_of_nil in Hk|].
    intros i j ki kj _ Hi. by rewrite lookup_nil in Hi.
  - rewrite bind_eq, createControl_eq, builtin_app by done.
    destruct (builtin h (obj_get cfg name)) eqn:Hb.
    + intros Hrun. destruct (IH _ _ _ _ Hrun) as (Hlen & Hkeep & Hnew & Hord).
      split; [done|]. split; [|split].
      * intros k [Hne Hk]%not_elem_of_cons.
        rewrite Hkeep by done. by apply read_assign_ne.
      * intros k [->|Hk]%elem_of_cons Hk'; [congruence|by apply Hnew].
      * intros [|i] [|j] ki kj Hij Hi Hj Hki Hkj; try lia.
        { change (Some name = Some ki) in Hi. congruence. }
        exact (Hord i j ki kj (proj2 (Nat.succ_lt_mono i j) Hij)
                 Hi Hj Hki Hkj).
    + rewrite <-app_assoc. intros Hrun.
      destruct (IH _ _ _ _ Hrun) as (Hlen & Hkeep & Hnew & Hord).
      rewrite !length_app in *. simpl in *.
      assert (read controls' name = Some (JRef (length h + length fresh)))
        as Hname'.
      { rewrite Hkeep by done. by apply read_assign_eq. }
      split; [lia|]. split; [|split].
      * intros k [Hne Hk]%not_elem_of_cons.
        rewrite Hkeep by done. by apply read_assign_ne.
      * intros k [->|Hk]%elem_of_cons Hk'.
        -- exists (length h + length fresh). split; [done|lia].
        -- destruct (Hnew k Hk Hk') as (l & Hl & Hbounds).
           exists l. split; [done|lia].
      * intros [|i] [|j] ki kj Hij Hi Hj Hki Hkj; try lia.
        -- change (Some name = Some ki) in Hi. injection Hi as <-.
           change (names !! j = Some kj) in Hj.
           destruct (Hnew kj (list_elem_of_lookup_2 _ _ _ Hj) Hkj)
             as (lj & Hlj & Hbounds).
           exists (length h + length fresh), lj.
           split; [done|]. split; [done|lia].
        -- exact (Hord i j ki kj (proj2 (Nat.succ_lt_mono i j) Hij)
                    Hi Hj Hki Hkj).
Qed.

(** X13: for a configuration with distinct keys, whose references are to
    existing instances, [group] only constructs; the own properties of the
    controls it hands to the [FormGroup] are the keys of the configuration
    other than [__proto__]; under every key of the configuration the
    controls read as the normalization of the entry under that key; and two
    keys whose entries are not built-in controls read as two different new
    controls. *)
Theorem group_normalizes_each_key h cfg options :
  NoDup cfg.*1 →
  (∀ k, closed h (obj_get cfg k)) →
  ∃ controls opts h',
    group cfg options h
    = Returns (JRef (length h')) (h' ++ [form_group controls opts])
    ∧ only_constructs h h'
    ∧ (∀ k, k ∈ (props controls).*1 ↔ k ∈ cfg.*1 ∧ k ≠ "__proto__")
    ∧ (∀ k, k ∈ cfg.*1 →
         ∃ r, read controls k = Some r
           ∧ normalized h h' (obj_get cfg k) r)
    ∧ (∀ k1 k2, k1 ≠ k2 → k1 ∈ cfg.*1 → k2 ∈ cfg.*1 →
         builtin h (obj_get cfg k1) = false →
         builtin h (obj_get cfg k2) = false →
         read controls k1 ≠ read controls k2).
Proof.
  intros Hnd Hcl.
  destruct (reduceControls_spec cfg h Hcl)
    as (controls & h' & Hrun & Hh' & Hkeys & Hall).
  destruct (group_returns cfg options h) as (controls' & opts & h'' & Hrun' & Hg).
  rewrite Hrun in Hrun'. simplify_eq.
  exists controls', opts, h''. do 4 (split; [done|]).
  unfold _reduceControls in Hrun. rewrite <-(app_nil_r h) in Hrun.
  destruct (reduceControls_loop_fresh h cfg (Object_keys cfg) Hcl
              (Object_keys_NoDup cfg Hnd) _ _ _ _ Hrun) as (_ & _ & _ & Hord).
  intros k1 k2 Hne Hk1 Hk2 Hb1 Hb2.
  apply Object_keys_elem, list_elem_of_lookup in Hk1 as [i Hi].
  apply Object_keys_elem, list_elem_of_lookup in Hk2 as [j Hj].
  destruct (Nat.lt_total i j) as [Hij|[->|Hji]].
  - destruct (Hord i j k1 k2 Hij Hi Hj Hb1 Hb2) as (li & lj & -> & -> & Hlt).
    intros [= ->]. lia.
  - congruence.
  - destruct (Hord j i k2 k1 Hji Hj Hi Hb2 Hb1) as (lj & li & -> & -> & Hlt).
    intros [= ->]. lia.
Qed.

Lemma group_normalizes_each_key_witness :
  ∃ controls opts h',
    group proto_config None sample_heap
    = Returns (JRef (length h')) (h' ++ [form_group controls opts])
    ∧ only_constructs sample_heap h'
    ∧ (∀ k, k ∈ (props controls).*1 ↔ k ∈ proto_config.*1 ∧ k ≠ "__proto__")
    ∧ (∀ k, k ∈ proto_config.*1 →
         ∃ r, read controls k = Some r
           ∧ normalized sample_heap h' (obj_get proto_config k) r)
    ∧ (∀ k1 k2, k1 ≠ k2 → k1 ∈ proto_config.*1 → k2 ∈ proto_config.*1 →
         builtin sample_heap (obj_get proto_config k1) = false →
         builtin sample_heap (obj_get proto_config k2) = false →
         read controls k1 ≠ read controls k2).
Proof.
  apply (group_normalizes_each_key sample_heap proto_config None).
  - compute_done.
  - intros k. unfold proto_config, obj_get.
    repeat (destruct (String.eqb _ k); [exact I|]). exact I.
Defined.

(** X14: for a configuration whose references are to existing instances,
    [array] only constructs, and the controls it hands to the [FormArray]
    are the normalizations of the elements, one for one and in the same
    order. *)
Theorem array_normalizes_each_element h cfgs v a :
  Forall (closed h) cfgs →
  ∃ controls h',
    array cfgs v a h
    = Returns (JRef (length h')) (h' ++ [form_array controls v a])
    ∧ only_constructs h h'
    ∧ Forall2 (normalized h h') cfgs controls.
Proof.
  intros Hcl.
  destruct (mapM_createControl_spec h cfgs Hcl h (only_constructs_refl h))
    as (rs & h' & Hrun & Hh' & Hall).
  exists rs, h'. unfold array. by rewrite bind_eq, Hrun.
Qed.

Lemma array_normalizes_each_element_witness :
  ∃ controls h',
    array [JRef 0; JNum 1] undefined undefined sample_heap
    = Returns (JRef (length h'))
        (h' ++ [form_array controls undefined undefined])
    ∧ only_constructs sample_heap h'
    ∧ Forall2 (normalized sample_heap h') [JRef 0; JNum 1] controls.
Proof.
  apply (array_normalizes_each_element sample_heap [JRef 0; JNum 1]
           undefined undefined).
  repeat constructor.
Defined.

End BuilderMore.

(** ** Further facts about the control tree *)
Module ModelMore.
Import JS Model ModelFacts.

Lemma group_free_value_shape c :
  group_free c = true → value_shape c = declared_shape c.
Proof.
  induction c as [v i d o|cs m d o IH|cs vs d o IH] using Control_rect';
    [done..|].
  simpl. intros Hfree. rewrite value_shape_list, map_indexed_const. f_equal.
  apply Forall_fmap_ext, Forall_forall. intros c Hin. apply IH; [done|].
  by apply (proj1 (forallb_forall _ _) Hfree), list_elem_of_In.
Qed.

Lemma list_value_filter cs :
  list_value cs = value <$> filter (λ c, enabled c = true) cs.
Proof.
  unfold list_value. induction cs as [|c cs IH]; [done|]. csimpl.
  destruct (enabled c) eqn:Hc.
  - rewrite filter_cons_True by done. csimpl. by rewrite IH.
  - rewrite filter_cons_False by by rewrite Hc. done.
Qed.

(** X12: in every reachable state the value of every list of the tree is
    the sequence of the values of its enabled children, in index order, with
    the disabled children left out; it is an array whose elements have the
    value shapes of the children; and for a list built of leaves and lists
    only that shape is the declared shape itself, with nothing partial. *)
Theorem list_value_is_enabled_children root p cs vs d o :
  reachable root →
  get root p = Some (List cs vs d o) →
  vs = value <$> filter (λ c, enabled c = true) cs
  ∧ has_shape (JArr vs) (ArrayOf (value_shape <$> cs))
  ∧ (if group_free (List cs vs d o)
     then declared_shape (List cs vs d o) = ArrayOf (value_shape <$> cs)
     else True).
Proof.
  intros Hreach Hget.
  pose proof (consistent_get _ _ _ (reachable_consistent _ Hreach) Hget) as HL.
  split; [|split].
  - apply consistent_list_inv in HL as (-> & _). apply list_value_filter.
  - rewrite <-(value_shape_list cs vs d o).
    apply (value_has_value_shape _ HL).
  - destruct (group_free (List cs vs d o)) eqn:Hfree; [|done].
    by rewrite <-(group_free_value_shape _ Hfree), value_shape_list.
Qed.

Lemma scenario_list_reachable : reachable scenario_list.
Proof.
  apply reachable_list. intros c Hin.
  repeat (apply elem_of_cons in Hin as [->|Hin]; [apply reachable_leaf|]).
  by apply elem_of_nil in Hin.
Defined.

Lemma list_value_is_enabled_children_witness :
  [JStr "x"; JStr "z"]
  = value <$> filter (λ c, enabled c = true)
                [new_leaf (JStr "x") false; new_leaf (JStr "y") true;
                 new_leaf (JStr "z") false]
  ∧ has_shape (JArr [JStr "x"; JStr "z"]) (ArrayOf [Opaque; Opaque; Opaque])
  ∧ ArrayOf [Opaque; Opaque; Opaque] = ArrayOf [Opaque; Opaque; Opaque].
Proof.
  apply (list_value_is_enabled_children scenario_list [] _ _ _ _
           scenario_list_reachable eq_refl).
Defined.

End ModelMore.
